(** * A convolutional variational autoencoder for MNIST: the notebook's model code

    Shallow embedding of [autoencoder-applications/variational_autoencoder.ipynb]:
    the module-level configuration, [create_encoder], [create_decoder],
    [sample], [create_sampler], the composed [vae] graph and the loss
    [neg_variational_lower_bound].

    Numbers are real numbers: the float32 arithmetic of the TensorFlow
    backend is idealised to exact arithmetic on [R].  A tensor is its shape
    together with its entries in row-major order.  Calls that raise in
    Python have no result ([None]).  The backend and layer operations the
    notebook calls (the [K] and [layers] name spaces of Keras) are written
    out as far as the model code depends on them. *)

From Stdlib Require Import String Reals Lra Lia Arith Bool List.
From Stdlib Require Strings.Byte.
Import ListNotations.
Local Open Scope R_scope.
Set Warnings "-abstract-large-number".

(** ** Option as the error monad *)

Definition obind {A B : Type} (c : option A) (k : A -> option B) : option B :=
  match c with
  | Some a => k a
  | None => None
  end.

Notation "x <- c ;; k" := (obind c (fun x => k))
  (at level 61, c at next level, right associativity).
Notation "' p <- c ;; k" := (obind c (fun x => let 'p := x in k))
  (at level 61, p pattern, c at next level, right associativity).

(** ** Tensors *)

(** Number of entries of a tensor of the given shape. *)
Definition numel (s : list nat) : nat := fold_right Nat.mul 1%nat s.

Record tensor : Type := mkTensor { dims : list nat; elems : list R }.

(** The entries fill the shape. *)
Definition wf (t : tensor) : Prop := length (elems t) = numel (dims t).

(** Entry at a flat (row-major) position. *)
Definition item (t : tensor) (i : nat) : R := nth i (elems t) 0.

Definition Rsum (l : list R) : R := fold_right Rplus 0 l.

Definition zipWith {A B C : Type} (f : A -> B -> C) (a : list A) (b : list B) : list C :=
  map (fun p => f (fst p) (snd p)) (combine a b).

Definition shape_eqb (s1 s2 : list nat) : bool :=
  if list_eq_dec Nat.eq_dec s1 s2 then true else false.

Definition map1 (f : R -> R) (t : tensor) : tensor :=
  mkTensor (dims t) (map f (elems t)).

(** Entrywise combination of two tensors of one shape.  Broadcasting between
    different shapes is outside the model: there is no result then. *)
Definition map2 (f : R -> R -> R) (a b : tensor) : option tensor :=
  if shape_eqb (dims a) (dims b)
  then Some (mkTensor (dims a) (zipWith f (elems a) (elems b)))
  else None.

(** Python's arithmetic operators on tensors, and between a float and a tensor. *)
Definition tadd : tensor -> tensor -> option tensor := map2 Rplus.
Definition tsub : tensor -> tensor -> option tensor := map2 Rminus.
Definition tmul : tensor -> tensor -> option tensor := map2 Rmult.
Definition sadd (c : R) : tensor -> tensor := map1 (fun v => c + v).
Definition smul (c : R) : tensor -> tensor := map1 (fun v => c * v).

Definition zeros (s : list nat) : tensor := mkTensor s (repeat 0 (numel s)).

(** ** The source of random numbers

    The backend's generator is a state: the sequence of standard normal
    draws it will hand out, and how many it has handed out already.  In what
    order the real generator hands out its draws from one call to the next is
    not modelled: what is proved below speaks of the values drawn in one
    call. *)

Record rng : Type := mkRng { draws : nat -> R; pos : nat }.

Definition Rand (A : Type) : Type := rng -> option (A * rng).

(** ** The Keras backend, [K] *)

Module K.

(** [K.epsilon()], the fuzz factor, at its default. *)
Definition epsilon : R := / 10000000.

Definition shape (t : tensor) : list nat := dims t.

Definition exp : tensor -> tensor := map1 Rtrigo_def.exp.

(** [K.sqrt] clips its argument to [[0, inf)] before taking the root. *)
Definition sqrt : tensor -> tensor := map1 (fun v => R_sqrt.sqrt (Rmax 0 v)).

Definition square : tensor -> tensor := map1 (fun v => v * v).

(** [K.random_normal(shape, mean, stddev)]: one fresh draw per entry. *)
Definition random_normal (shp : list nat) (mean stddev : R) (g : rng) : tensor * rng :=
  (mkTensor shp (map (fun i => mean + stddev * draws g (pos g + i)%nat) (seq 0 (numel shp))),
   mkRng (draws g) (pos g + numel shp)).

(** [tf.clip_by_value(v, lo, hi)]: [max(min(v, hi), lo)]. *)
Definition clip_by_value (v lo hi : R) : R := Rmax (Rmin v hi) lo.

(** [tf.nn.sigmoid_cross_entropy_with_logits], one entry:
    [max(x, 0) - x * z + log(1 + exp(-abs(x)))] for logit [x], label [z]. *)
Definition sigmoid_cross_entropy_with_logits (z x : R) : R :=
  Rmax x 0 - x * z + ln (1 + Rtrigo_def.exp (- Rabs x)).

(** [K.binary_crossentropy(target, output)] with probabilities as output,
    one entry: the output is clipped to [[epsilon, 1 - epsilon]], turned
    back into a logit, and handed to the cross-entropy with logits. *)
Definition binary_crossentropy1 (target output : R) : R :=
  let output := clip_by_value output epsilon (1 - epsilon) in
  let output := ln (output / (1 - output)) in
  sigmoid_cross_entropy_with_logits target output.

Definition binary_crossentropy : tensor -> tensor -> option tensor :=
  map2 binary_crossentropy1.

(** [K.batch_flatten(x)]: reshape to [[-1, prod(shape(x)[1:])]]; the first
    dimension is inferred from the number of entries, which fails when the
    other one is 0.  (A tensor of rank 0 has no axis after the first: the
    product is 1 and the result has shape (1, 1).) *)
Definition batch_flatten (x : tensor) : option tensor :=
  let rest := tl (dims x) in
  if (numel rest =? 0)%nat then None
  else Some (mkTensor [(length (elems x) / numel rest)%nat; numel rest] (elems x)).

(** Row [i] of the entries seen as rows of length [d]. *)
Definition row (d : nat) (l : list R) (i : nat) : list R :=
  firstn d (skipn (i * d) l).

(** [K.sum(x, axis=-1)]: the sum along the last axis. *)
Definition sum (x : tensor) : option tensor :=
  match rev (dims x) with
  | [] => None
  | d :: outer =>
      Some (mkTensor (rev outer)
              (map (fun i => Rsum (row d (elems x) i)) (seq 0 (numel (rev outer)))))
  end.

(** [K.mean(x)]: the mean of all entries, a scalar. *)
Definition mean (x : tensor) : tensor :=
  mkTensor [] [Rsum (elems x) / INR (length (elems x))].

End K.

(** ** The sampling layer *)

Definition sample (args : list tensor) : Rand tensor := fun g =>
  match args with
  | [t_mean; t_log_var] =>
      let t_sigma := K.sqrt (K.exp t_log_var) in
      let '(epsilon, g') := K.random_normal (K.shape t_mean) 0 1 g in
      scaled <- tmul t_sigma epsilon ;;
      t <- tadd t_mean scaled ;;
      Some (t, g')
  | _ => None
  end.

(** [layers.Lambda(f)]: a layer that calls [f]. *)
Definition Lambda {A B : Type} (f : A -> B) : A -> B := f.

Definition create_sampler : list tensor -> Rand tensor := Lambda sample.

(** ** Layers

    What a layer computes before its activation (weights, bias, the
    arithmetic of a convolution) belongs to the framework: it is a parameter,
    a [kernel], giving the pre-activation value at each position of the
    output from the layer's input.  The layer fixes the output shape and
    applies the activation. *)

Inductive activation : Type := linear | relu | sigmoid.

Definition activate (a : activation) (v : R) : R :=
  match a with
  | linear => v
  | relu => Rmax v 0
  | sigmoid => / (1 + exp (- v))
  end.

(** The padding mode the notebook uses. *)
Inductive padding : Type := same.

Definition kernel : Type := tensor -> nat -> R.

Definition emit (out_shape : list nat) (a : activation) (w : kernel) (x : tensor) : tensor :=
  mkTensor out_shape (map (fun i => activate a (w x i)) (seq 0 (numel out_shape))).

Module layers.

(** [conv_utils.conv_output_length] for an undilated convolution. *)
Definition conv_output_length (input_length filter_size : nat) (p : padding) (stride : nat) : nat :=
  let output_length := match p with same => input_length end in
  ((output_length + stride - 1) / stride)%nat.

(** [conv_utils.deconv_length]. *)
Definition deconv_length (dim_size stride_size kernel_size : nat) (p : padding) : nat :=
  match p with same => (dim_size * stride_size)%nat end.

(** [layers.Input(shape)]: the fed batch has that shape after its batch
    axis.  Keras makes this check on the arrays fed to a model; a model
    called on a tensor of another shape is not stopped by it.  The check is
    made here wherever an input layer stands, and nothing below is concluded
    from a refusal. *)
Definition Input (shp : list nat) (x : tensor) : option tensor :=
  match dims x with
  | [] => None
  | _ :: rest => if shape_eqb rest shp then Some x else None
  end.

Definition Conv2D (filters kernel_size : nat) (p : padding) (a : activation)
    (strides : nat * nat) (w : kernel) (x : tensor) : option tensor :=
  match dims x with
  | [b; rows; cols; _] =>
      Some (emit [b; conv_output_length rows kernel_size p (fst strides);
                     conv_output_length cols kernel_size p (snd strides); filters] a w x)
  | _ => None
  end.

Definition Conv2DTranspose (filters kernel_size : nat) (p : padding) (a : activation)
    (strides : nat * nat) (w : kernel) (x : tensor) : option tensor :=
  match dims x with
  | [b; rows; cols; _] =>
      Some (emit [b; deconv_length rows (fst strides) kernel_size p;
                     deconv_length cols (snd strides) kernel_size p; filters] a w x)
  | _ => None
  end.

(** [layers.Flatten()]: for inputs of rank 3 or more. *)
Definition Flatten (x : tensor) : option tensor :=
  if (3 <=? length (dims x))%nat then K.batch_flatten x else None.

(** [layers.Dense(units)]: acts on the last axis of an input of rank 2 or more. *)
Definition Dense (units : nat) (a : activation) (w : kernel) (x : tensor) : option tensor :=
  if (2 <=? length (dims x))%nat
  then Some (emit (removelast (dims x) ++ [units]) a w x)
  else None.

(** [layers.Reshape(target_shape)]: the entries of one example must fill the target. *)
Definition Reshape (target_shape : list nat) (x : tensor) : option tensor :=
  match dims x with
  | [] => None
  | b :: rest =>
      if (numel rest =? numel target_shape)%nat
      then Some (mkTensor (b :: target_shape) (elems x))
      else None
  end.

End layers.

(** ** Configuration *)

(** Dimensions of MNIST images *)
Definition image_shape : list nat := [28; 28; 1]%nat.

(** Dimension of latent space *)
Definition latent_dim : nat := 2.

(** Mini-batch size for training *)
Definition batch_size : nat := 128.

(** ** Encoder and decoder *)

Record encoder_weights : Type := mkEncoderWeights {
  enc_conv_1 : kernel; enc_conv_2 : kernel; enc_conv_3 : kernel; enc_conv_4 : kernel;
  enc_dense : kernel; enc_mean : kernel; enc_log_var : kernel }.

Record decoder_weights : Type := mkDecoderWeights {
  dec_dense : kernel; dec_deconv : kernel; dec_conv : kernel }.

(** The encoder model, for given weights: from images to the mean and the
    log variance of the variational distribution. *)
Definition create_encoder (W : encoder_weights) (encoder_iput : tensor) : option (tensor * tensor) :=
  encoder_iput <- layers.Input image_shape encoder_iput ;;
  x <- layers.Conv2D 32 3 same relu (1, 1)%nat (enc_conv_1 W) encoder_iput ;;
  x <- layers.Conv2D 64 3 same relu (2, 2)%nat (enc_conv_2 W) x ;;
  x <- layers.Conv2D 64 3 same relu (1, 1)%nat (enc_conv_3 W) x ;;
  x <- layers.Conv2D 64 3 same relu (1, 1)%nat (enc_conv_4 W) x ;;
  x <- layers.Flatten x ;;
  x <- layers.Dense 32 relu (enc_dense W) x ;;
  t_mean <- layers.Dense latent_dim linear (enc_mean W) x ;;
  t_log_var <- layers.Dense latent_dim linear (enc_log_var W) x ;;
  Some (t_mean, t_log_var).

(** The decoder model, for given weights: from latent vectors to images. *)
Definition create_decoder (W : decoder_weights) (decoder_input : tensor) : option tensor :=
  decoder_input <- layers.Input [latent_dim] decoder_input ;;
  x <- layers.Dense 12544 relu (dec_dense W) decoder_input ;;
  x <- layers.Reshape [14; 14; 64]%nat x ;;
  x <- layers.Conv2DTranspose 32 3 same relu (2, 2)%nat (dec_deconv W) x ;;
  x <- layers.Conv2D 1 3 same sigmoid (1, 1)%nat (dec_conv W) x ;;
  Some x.

(** ** The composed model *)

(** The values the graph's tensors take for one fed batch. *)
Record graph : Type := mkGraph {
  g_x : tensor; g_t_mean : tensor; g_t_log_var : tensor; g_t : tensor; g_t_decoded : tensor }.

Definition run_graph (We : encoder_weights) (Wd : decoder_weights) (x : tensor) : Rand graph :=
  fun g =>
    let encoder := create_encoder We in
    let decoder := create_decoder Wd in
    let sampler := create_sampler in
    x <- layers.Input image_shape x ;;
    '(t_mean, t_log_var) <- encoder x ;;
    '(t, g') <- sampler [t_mean; t_log_var] g ;;
    t_decoded <- decoder t ;;
    Some (mkGraph x t_mean t_log_var t t_decoded, g').

(** [vae = Model(x, t_decoded)] *)
Definition vae (We : encoder_weights) (Wd : decoder_weights) (x : tensor) : Rand tensor :=
  fun g => '(G, g') <- run_graph We Wd x g ;; Some (g_t_decoded G, g').

(** ** The loss *)

(** Module-level names and what they are bound to.  (A Python float or
    array bound to a name is not represented.) *)
Inductive value : Type :=
  | VInt (n : nat)
  | VShape (s : list nat)
  | VTensor (t : tensor).

Definition globals : Type := string -> option value.

(** Reading a global name where a tensor is needed. *)
Definition global_tensor (G : globals) (name : string) : option tensor :=
  match G name with
  | Some (VTensor t) => Some t
  | _ => None
  end.

(** The two local values of the loss function's body, each as a function of
    the names it mentions. *)

(** Reconstruction loss *)
Definition rc_loss (x t_decoded : tensor) : option tensor :=
  fx <- K.batch_flatten x ;;
  ft <- K.batch_flatten t_decoded ;;
  ce <- K.binary_crossentropy fx ft ;;
  K.sum ce.

(** Regularization term (KL divergence) *)
Definition kl_loss (t_mean t_log_var : tensor) : option tensor :=
  a <- tsub (sadd 1 t_log_var) (K.square t_mean) ;;
  b <- tsub a (K.exp t_log_var) ;;
  s <- K.sum b ;;
  Some (smul (-0.5) s).

(** The loss function.  Its parameters are the images and the
    reconstructions; [t_mean] and [t_log_var] are free names of its body,
    read from the module's globals when it runs. *)
Definition neg_variational_lower_bound (G : globals) (x t_decoded : tensor) : option tensor :=
  rc <- rc_loss x t_decoded ;;
  t_log_var <- global_tensor G "t_log_var" ;;
  t_mean <- global_tensor G "t_mean" ;;
  kl <- kl_loss t_mean t_log_var ;;
  (* Average over mini-batch *)
  total <- tadd rc kl ;;
  Some (K.mean total).

(** The module's globals once the graph has values for a fed batch. *)
Definition notebook_globals (G : graph) : globals := fun name =>
  if String.eqb name "image_shape" then Some (VShape image_shape)
  else if String.eqb name "latent_dim" then Some (VInt latent_dim)
  else if String.eqb name "batch_size" then Some (VInt batch_size)
  else if String.eqb name "x" then Some (VTensor (g_x G))
  else if String.eqb name "t_mean" then Some (VTensor (g_t_mean G))
  else if String.eqb name "t_log_var" then Some (VTensor (g_t_log_var G))
  else if String.eqb name "t" then Some (VTensor (g_t G))
  else if String.eqb name "t_decoded" then Some (VTensor (g_t_decoded G))
  else None.

(** The loss of one training step, [vae] compiled with the loss and fitted
    with the images as their own targets. *)
Definition vae_loss (We : encoder_weights) (Wd : decoder_weights) (x : tensor) : Rand tensor :=
  fun g =>
    '(G, g') <- run_graph We Wd x g ;;
    l <- neg_variational_lower_bound (notebook_globals G) x (g_t_decoded G) ;;
    Some (l, g').

(** ** Reference quantities *)

(** The closed form of the KL divergence of Normal(mu, var) from the
    standard normal, in one dimension. *)
Definition gaussian_kl (mu var : R) : R := (var + mu ^ 2 - 1 - ln var) / 2.

(** The binary cross-entropy of a probability [p] against a target [z]. *)
Definition cross_entropy (z p : R) : R := - (z * ln p + (1 - z) * ln (1 - p)).

(** ** Training and validation data

    [mnist.load_data()] hands out the images as arrays of unsigned bytes of
    shape (N, 28, 28). *)

Record uint8_array : Type := mkUint8 { u_dims : list nat; u_elems : list Byte.byte }.

Definition u_wf (a : uint8_array) : Prop := length (u_elems a) = numel (u_dims a).

(** [a.astype('float32')] *)
Definition astype_float32 (a : uint8_array) : tensor :=
  mkTensor (u_dims a) (map (fun v => INR (Byte.to_nat v)) (u_elems a)).

(** [t / c], a tensor by a Python float. *)
Definition sdiv (t : tensor) (c : R) : tensor := map1 (fun v => v / c) t.

(** [t.reshape(new_shape)]: the entries must fill the new shape. *)
Definition reshape (t : tensor) (new_shape : list nat) : option tensor :=
  if (numel new_shape =? length (elems t))%nat
  then Some (mkTensor new_shape (elems t))
  else None.

(** What the notebook does to [x_train], and likewise to [x_test], before
    training: scale the bytes to floats and add the channel axis. *)
Definition normalize (x_train : uint8_array) : option tensor :=
  let x_train := sdiv (astype_float32 x_train) 255 in
  reshape x_train (dims x_train ++ [1%nat]).

(** * Properties *)

(** ** Lists and tensors *)

Lemma shape_eqb_refl (s : list nat) : shape_eqb s s = true.
Proof. unfold shape_eqb. destruct (list_eq_dec Nat.eq_dec s s); congruence. Qed.

Lemma length_zipWith {A B C : Type} (f : A -> B -> C) (a : list A) (b : list B) :
  length (zipWith f a b) = Nat.min (length a) (length b).
Proof. unfold zipWith. now rewrite length_map, length_combine. Qed.

Lemma nth_zipWith (f : R -> R -> R) (a b : list R) (i : nat) :
  (i < length a)%nat -> (i < length b)%nat ->
  nth i (zipWith f a b) 0 = f (nth i a 0) (nth i b 0).
Proof.
  revert b i. induction a as [|x a IH]; intros [|y b] i Ha Hb; simpl in *; try lia.
  destruct i as [|i]; [reflexivity|].
  apply IH; lia.
Qed.

Lemma nth_map_seq (f : nat -> R) (n i : nat) :
  (i < n)%nat -> nth i (map f (seq 0 n)) 0 = f i.
Proof.
  intros Hi.
  rewrite (nth_indep _ 0 (f 0%nat)) by now rewrite length_map, length_seq.
  rewrite (map_nth f (seq 0 n) 0%nat i), seq_nth by exact Hi.
  reflexivity.
Qed.

Lemma map2_same_shape (f : R -> R -> R) (a b : tensor) :
  dims a = dims b ->
  map2 f a b = Some (mkTensor (dims a) (zipWith f (elems a) (elems b))).
Proof. intros E. unfold map2. now rewrite E, shape_eqb_refl. Qed.

Lemma length_map1 (f : R -> R) (t : tensor) : length (elems (map1 f t)) = length (elems t).
Proof. apply length_map. Qed.

Lemma item_map1 (f : R -> R) (t : tensor) (i : nat) :
  (i < length (elems t))%nat -> item (map1 f t) i = f (item t i).
Proof.
  intros Hi. unfold item, map1; simpl.
  rewrite (nth_indep _ 0 (f 0)) by now rewrite length_map.
  apply map_nth.
Qed.

(** ** The sampler *)

(** What [sample] computes on inputs of one shape: the entries, the shape,
    and the state the generator is left in. *)
Lemma sample_eq (t_mean t_log_var : tensor) (g : rng) :
  dims t_mean = dims t_log_var ->
  sample [t_mean; t_log_var] g =
  Some (mkTensor (dims t_mean)
          (zipWith Rplus (elems t_mean)
             (zipWith Rmult (elems (K.sqrt (K.exp t_log_var)))
                (map (fun i => 0 + 1 * draws g (pos g + i)%nat)
                     (seq 0 (numel (dims t_mean)))))),
        mkRng (draws g) (pos g + numel (dims t_mean))).
Proof.
  intros E. unfold sample, K.random_normal, K.shape, tmul, tadd.
  rewrite map2_same_shape by (simpl; congruence). simpl obind.
  rewrite map2_same_shape by (simpl; congruence). simpl.
  now rewrite E.
Qed.

Lemma sqrt_exp_pos (v : R) : 0 < sqrt (exp v).
Proof. apply sqrt_lt_R0, exp_pos. Qed.

(** C1: on a mean and a log variance of one shape, the sampler returns, at
    every position, mean + sqrt(exp(log_variance)) * epsilon, epsilon being
    the fresh standard normal draw of that position.  The scale is positive
    with square exp(log_variance), and the returned entry is at most c
    exactly when epsilon is at most (c - mean) / scale: the entry has the
    law of a Normal(mean, exp(log_variance)) variable. *)
Theorem sample_reparameterization (t_mean t_log_var : tensor) (g : rng) :
  dims t_mean = dims t_log_var -> wf t_mean -> wf t_log_var ->
  exists t : tensor,
    sample [t_mean; t_log_var] g
      = Some (t, mkRng (draws g) (pos g + numel (dims t_mean))) /\
    forall i : nat, (i < numel (dims t_mean))%nat ->
      let epsilon := draws g (pos g + i) in
      let variance := exp (item t_log_var i) in
      item t i = item t_mean i + sqrt variance * epsilon /\
      0 < sqrt variance /\
      sqrt variance * sqrt variance = variance /\
      forall c : R, item t i <= c <-> epsilon <= (c - item t_mean i) / sqrt variance.
Proof.
  intros E Hm Hv. unfold wf in Hm, Hv. rewrite <- E in Hv.
  eexists. split; [apply sample_eq; congruence|].
  intros i Hi epsilon variance.
  assert (Hs : 0 < sqrt variance) by apply sqrt_exp_pos.
  assert (Hval : item
     {| dims := dims t_mean;
        elems := zipWith Rplus (elems t_mean)
           (zipWith Rmult (elems (K.sqrt (K.exp t_log_var)))
              (map (fun i0 : nat => 0 + 1 * draws g (pos g + i0))
                 (seq 0 (numel (dims t_mean))))) |} i
     = item t_mean i + sqrt variance * epsilon).
  { unfold item at 1; cbn [elems].
    assert (Hlen : length (elems (K.sqrt (K.exp t_log_var))) = numel (dims t_mean)).
    { unfold K.sqrt, K.exp. now rewrite !length_map1. }
    rewrite nth_zipWith;
      [| lia | rewrite length_zipWith, Hlen, length_map, length_seq; lia].
    rewrite nth_zipWith; [| lia | rewrite length_map, length_seq; lia].
    rewrite nth_map_seq by exact Hi.
    fold (item (K.sqrt (K.exp t_log_var)) i).
    unfold K.sqrt. rewrite item_map1 by (unfold K.exp; rewrite length_map1; lia).
    unfold K.exp. rewrite item_map1 by lia.
    rewrite Rmax_right by (left; apply exp_pos).
    fold variance. fold epsilon. unfold item. ring. }
  rewrite Hval. repeat split.
  - exact Hs.
  - apply sqrt_sqrt. left. apply exp_pos.
  - intros H. apply Rmult_le_reg_l with (sqrt variance); [exact Hs|].
    replace (sqrt variance * ((c - item t_mean i) / sqrt variance))
      with (c - item t_mean i) by (field; lra).
    lra.
  - intros H. apply Rmult_le_compat_l with (r := sqrt variance) in H; [|lra].
    replace (sqrt variance * ((c - item t_mean i) / sqrt variance))
      with (c - item t_mean i) in H by (field; lra).
    lra.
Qed.

Lemma sample_reparameterization_witness :
  exists t : tensor,
    sample [zeros [1; 2]%nat; zeros [1; 2]%nat] (mkRng (fun _ => 1) 0)
      = Some (t, mkRng (fun _ => 1) (0 + numel [1; 2]%nat)) /\
    forall i : nat, (i < numel [1; 2]%nat)%nat ->
      let epsilon := 1 in
      let variance := exp (item (zeros [1; 2]%nat) i) in
      item t i = item (zeros [1; 2]%nat) i + sqrt variance * epsilon /\
      0 < sqrt variance /\
      sqrt variance * sqrt variance = variance /\
      forall c : R, item t i <= c <-> epsilon <= (c - item (zeros [1; 2]%nat) i) / sqrt variance.
Proof.
  apply (sample_reparameterization (zeros [1; 2]%nat) (zeros [1; 2]%nat) (mkRng (fun _ => 1) 0));
    reflexivity.
Defined.

(** C8: on a mean and a log variance of one shape the sampler's output has
    the shape of the mean, and the output is a function of the mean, the log
    variance and the draws taken: two generators that hand out the same
    draws give the same output (in particular the same generator in the
    same state does). *)
Theorem sample_shape_deterministic (t_mean t_log_var : tensor) (g1 g2 : rng) :
  dims t_mean = dims t_log_var -> wf t_mean -> wf t_log_var ->
  (forall i : nat, (i < numel (dims t_mean))%nat ->
     draws g1 (pos g1 + i) = draws g2 (pos g2 + i)) ->
  exists t : tensor,
    option_map fst (sample [t_mean; t_log_var] g1) = Some t /\
    option_map fst (sample [t_mean; t_log_var] g2) = Some t /\
    dims t = dims t_mean /\ wf t.
Proof.
  intros E Hm Hv Hd. unfold wf in Hm, Hv. rewrite <- E in Hv.
  rewrite !sample_eq by exact E. simpl option_map.
  assert (Heps : map (fun i => 0 + 1 * draws g2 (pos g2 + i)%nat) (seq 0 (numel (dims t_mean)))
               = map (fun i => 0 + 1 * draws g1 (pos g1 + i)%nat) (seq 0 (numel (dims t_mean)))).
  { apply map_ext_in. intros i Hi. apply in_seq in Hi. rewrite Hd by lia. reflexivity. }
  rewrite Heps.
  eexists. split; [reflexivity|]. split; [reflexivity|]. split; [reflexivity|].
  unfold wf, K.sqrt, K.exp, map1; cbn [elems dims].
  rewrite !length_zipWith, !length_map, length_seq. lia.
Qed.

Lemma sample_shape_deterministic_witness :
  exists t : tensor,
    option_map fst (sample [zeros [4; 2]%nat; zeros [4; 2]%nat] (mkRng (fun _ => 1) 0)) = Some t /\
    option_map fst (sample [zeros [4; 2]%nat; zeros [4; 2]%nat] (mkRng (fun _ => 1) 8)) = Some t /\
    dims t = [4; 2]%nat /\ wf t.
Proof.
  apply (sample_shape_deterministic (zeros [4; 2]%nat) (zeros [4; 2]%nat)
           (mkRng (fun _ => 1) 0) (mkRng (fun _ => 1) 8)); reflexivity.
Defined.

(** ** Sums along the last axis *)

Lemma nth_map_R (f : R -> R) (l : list R) (k : nat) :
  (k < length l)%nat -> nth k (map f l) 0 = f (nth k l 0).
Proof.
  intros Hk. rewrite (nth_indep _ 0 (f 0)) by now rewrite length_map.
  apply map_nth.
Qed.

Lemma row_nth (d : nat) (l : list R) (i : nat) :
  (i * d + d <= length l)%nat ->
  K.row d l i = map (fun j => nth (i * d + j) l 0) (seq 0 d).
Proof.
  intros H. unfold K.row. apply (nth_ext _ _ 0 0).
  - rewrite length_firstn, length_skipn, length_map, length_seq. lia.
  - intros k Hk. rewrite length_firstn, length_skipn in Hk.
    rewrite nth_firstn.
    replace (k <? d)%nat with true by (symmetry; apply Nat.ltb_lt; lia).
    rewrite nth_skipn, nth_map_seq by lia. reflexivity.
Qed.

Lemma row_index_bound (b d i j : nat) : (i < b)%nat -> (j < d)%nat -> (i * d + j < b * d)%nat.
Proof. intros Hi Hj. nia. Qed.

Lemma row_end_bound (b d i : nat) : (i < b)%nat -> (i * d + d <= b * d)%nat.
Proof. intros Hi. nia. Qed.

Lemma numel_rank1 (b : nat) : numel [b] = b.
Proof. simpl. lia. Qed.

Lemma numel_rank2 (b d : nat) : numel [b; d] = (b * d)%nat.
Proof. simpl. lia. Qed.

Lemma numel_cons (b : nat) (rest : list nat) : numel (b :: rest) = (b * numel rest)%nat.
Proof. reflexivity. Qed.

(** [K.sum] of a tensor of rank 2, entry by entry. *)
Lemma sum_rank2 (b d : nat) (l : list R) :
  length l = (b * d)%nat ->
  K.sum (mkTensor [b; d] l)
  = Some (mkTensor [b]
            (map (fun i => Rsum (map (fun j => nth (i * d + j) l 0) (seq 0 d))) (seq 0 b))).
Proof.
  intros Hl. unfold K.sum. cbn [dims elems rev app]. rewrite numel_rank1.
  do 2 f_equal. apply map_ext_in. intros i Hi. apply in_seq in Hi.
  rewrite row_nth; [reflexivity|]. rewrite Hl. apply row_end_bound. lia.
Qed.

Lemma Rsum_nonneg (l : list R) : (forall v, In v l -> 0 <= v) -> 0 <= Rsum l.
Proof.
  induction l as [|v l IH]; intros H; simpl; [lra|].
  assert (0 <= v) by (apply H; now left).
  assert (0 <= Rsum l) by (apply IH; intros w Hw; apply H; now right).
  lra.
Qed.

Lemma Rsum_map_nonneg {A : Type} (f : A -> R) (l : list A) :
  (forall a, In a l -> 0 <= f a) -> 0 <= Rsum (map f l).
Proof.
  intros H. apply Rsum_nonneg. intros v Hv.
  apply in_map_iff in Hv. destruct Hv as [a [<- Ha]]. now apply H.
Qed.


Lemma Rsum_map_scale {A : Type} (c : R) (f : A -> R) (l : list A) :
  Rsum (map (fun a => c * f a) l) = c * Rsum (map f l).
Proof. induction l as [|a l IH]; simpl; [lra|]. rewrite IH. lra. Qed.

(** ** The regularization term *)

Lemma item_mkTensor (s : list nat) (l : list R) (i : nat) :
  item (mkTensor s l) i = nth i l 0.
Proof. reflexivity. Qed.

Lemma kl_summand_closed_form (m v : R) :
  -0.5 * (1 + v - m * m - exp v) = gaussian_kl m (exp v).
Proof. unfold gaussian_kl. rewrite ln_exp. lra. Qed.

Lemma kl_summand_nonpos (m v : R) : 0 <= -0.5 * (1 + v - m ^ 2 - exp v).
Proof.
  pose proof (exp_ineq1_le v) as He.
  pose proof (pow2_ge_0 m) as Hs.
  lra.
Qed.

Section RegularizationTerm.

(** A batch of [b] examples with [d] latent dimensions. *)
Variables (t_mean t_log_var : tensor) (b d : nat).
Hypothesis mean_shape : dims t_mean = [b; d].
Hypothesis log_var_shape : dims t_log_var = [b; d].
Hypothesis mean_wf : wf t_mean.
Hypothesis log_var_wf : wf t_log_var.

(** The regularization term, entry by entry. *)
Lemma kl_loss_eq :
  kl_loss t_mean t_log_var
  = Some (mkTensor [b]
      (map (fun i => -0.5 * Rsum (map (fun j =>
                1 + item t_log_var (i * d + j)
                  - item t_mean (i * d + j) * item t_mean (i * d + j)
                  - exp (item t_log_var (i * d + j))) (seq 0 d)))
           (seq 0 b))).
Proof.
  pose proof mean_wf as Hm. pose proof log_var_wf as Hv. unfold wf in Hm, Hv.
  rewrite mean_shape, numel_rank2 in Hm. rewrite log_var_shape, numel_rank2 in Hv.
  unfold kl_loss, tsub, sadd, K.square, K.exp.
  rewrite map2_same_shape by (cbn [map1 dims]; congruence). cbn [obind].
  rewrite map2_same_shape by (cbn [map1 dims]; congruence). cbn [obind].
  cbn [map1 dims elems]. rewrite log_var_shape.
  rewrite sum_rank2
    by (rewrite !length_zipWith, !length_map; lia).
  cbn [obind]. unfold smul, map1. cbn [dims elems]. rewrite map_map.
  do 2 f_equal. apply map_ext_in. intros i Hi. apply in_seq in Hi.
  f_equal. f_equal. apply map_ext_in. intros j Hj. apply in_seq in Hj.
  assert (Hk : (i * d + j < b * d)%nat) by (apply row_index_bound; lia).
  rewrite nth_zipWith by (rewrite ?length_zipWith, ?length_map; lia).
  rewrite nth_zipWith by (rewrite ?length_map; lia).
  rewrite !nth_map_R by lia. reflexivity.
Qed.


(** C2: for every example [i] of a batch, the regularization term is
    -0.5 * sum over the latent dimensions of
    (1 + log_variance - mean^2 - exp(log_variance)), which is the sum over
    the dimensions of the closed-form KL divergence of
    Normal(mean, exp(log_variance)) from the standard normal. *)
Theorem kl_loss_closed_form :
  exists kl : tensor,
    kl_loss t_mean t_log_var = Some kl /\ dims kl = [b] /\
    forall i : nat, (i < b)%nat ->
      item kl i = -0.5 * Rsum (map (fun j =>
          1 + item t_log_var (i * d + j) - item t_mean (i * d + j) ^ 2
            - exp (item t_log_var (i * d + j))) (seq 0 d)) /\
      item kl i = Rsum (map (fun j =>
          gaussian_kl (item t_mean (i * d + j)) (exp (item t_log_var (i * d + j)))) (seq 0 d)).
Proof.
  eexists. split; [apply kl_loss_eq|]. split; [reflexivity|].
  intros i Hi. rewrite !item_mkTensor, nth_map_seq by exact Hi. split.
  - do 2 f_equal. apply map_ext. intros j. ring.
  - rewrite <- Rsum_map_scale. f_equal. apply map_ext. intros j.
    apply kl_summand_closed_form.
Qed.


(** C6: for every mean and log variance, the regularization term of every
    example is non-negative. *)
Theorem kl_loss_nonneg :
  exists kl : tensor,
    kl_loss t_mean t_log_var = Some kl /\
    forall i : nat, (i < b)%nat ->
      item kl i = -0.5 * Rsum (map (fun j =>
          1 + item t_log_var (i * d + j) - item t_mean (i * d + j) ^ 2
            - exp (item t_log_var (i * d + j))) (seq 0 d)) /\
      0 <= item kl i.
Proof.
  eexists. split; [apply kl_loss_eq|].
  intros i Hi. rewrite !item_mkTensor, nth_map_seq by exact Hi. split.
  - do 2 f_equal. apply map_ext. intros j. ring.
  - rewrite <- Rsum_map_scale. apply Rsum_map_nonneg. intros j _.
    replace (item t_mean (i * d + j) * item t_mean (i * d + j))
      with (item t_mean (i * d + j) ^ 2) by ring.
    apply kl_summand_nonpos.
Qed.

End RegularizationTerm.

Lemma kl_loss_closed_form_witness :
  exists kl : tensor,
    kl_loss (zeros [4; 2]%nat) (zeros [4; 2]%nat) = Some kl /\ dims kl = [4]%nat /\
    forall i : nat, (i < 4)%nat ->
      item kl i = -0.5 * Rsum (map (fun j =>
          1 + item (zeros [4; 2]%nat) (i * 2 + j) - item (zeros [4; 2]%nat) (i * 2 + j) ^ 2
            - exp (item (zeros [4; 2]%nat) (i * 2 + j))) (seq 0 2)) /\
      item kl i = Rsum (map (fun j =>
          gaussian_kl (item (zeros [4; 2]%nat) (i * 2 + j))
                      (exp (item (zeros [4; 2]%nat) (i * 2 + j)))) (seq 0 2)).
Proof.
  apply (kl_loss_closed_form (zeros [4; 2]%nat) (zeros [4; 2]%nat) 4 2); reflexivity.
Defined.


Lemma kl_loss_nonneg_witness :
  exists kl : tensor,
    kl_loss (mkTensor [1; 2]%nat [3; -4]) (mkTensor [1; 2]%nat [-1; 2]) = Some kl /\
    forall i : nat, (i < 1)%nat ->
      item kl i = -0.5 * Rsum (map (fun j =>
          1 + item (mkTensor [1; 2]%nat [-1; 2]) (i * 2 + j)
            - item (mkTensor [1; 2]%nat [3; -4]) (i * 2 + j) ^ 2
            - exp (item (mkTensor [1; 2]%nat [-1; 2]) (i * 2 + j))) (seq 0 2)) /\
      0 <= item kl i.
Proof.
  apply (kl_loss_nonneg (mkTensor [1; 2]%nat [3; -4]) (mkTensor [1; 2]%nat [-1; 2]) 1 2);
    reflexivity.
Defined.

(** ** The reconstruction term *)

Lemma epsilon_bounds : 0 < K.epsilon < 1 - K.epsilon.
Proof. unfold K.epsilon. lra. Qed.

Lemma clip_by_value_bounds (v lo hi : R) :
  lo <= hi -> lo <= K.clip_by_value v lo hi <= hi.
Proof.
  intros H. unfold K.clip_by_value. split.
  - apply Rmax_r.
  - apply Rmax_lub; [apply Rmin_r | exact H].
Qed.

Lemma clip_probability (o : R) :
  0 < K.clip_by_value o K.epsilon (1 - K.epsilon) < 1.
Proof.
  pose proof epsilon_bounds as He.
  pose proof (clip_by_value_bounds o K.epsilon (1 - K.epsilon)) as Hc.
  lra.
Qed.

Lemma ln_one_plus_exp_pos (v : R) : 0 < ln (1 + exp v).
Proof.
  rewrite <- ln_1. apply ln_increasing; [lra|].
  pose proof (exp_pos v). lra.
Qed.

Lemma sigmoid_cross_entropy_with_logits_nonneg (z x : R) :
  0 <= z <= 1 -> 0 <= K.sigmoid_cross_entropy_with_logits z x.
Proof.
  intros Hz. unfold K.sigmoid_cross_entropy_with_logits.
  pose proof (ln_one_plus_exp_pos (- Rabs x)) as Hl.
  assert (0 <= Rmax x 0 - x * z).
  { destruct (Rle_dec 0 x) as [Hx|Hx].
    - rewrite Rmax_left by exact Hx. nra.
    - rewrite Rmax_right by lra. nra. }
  lra.
Qed.

Lemma binary_crossentropy1_nonneg (target output : R) :
  0 <= target <= 1 -> 0 <= K.binary_crossentropy1 target output.
Proof. intros H. now apply sigmoid_cross_entropy_with_logits_nonneg. Qed.

(** The cross-entropy with logits, at the logit of a probability, is the
    binary cross-entropy of that probability. *)
Lemma sigmoid_cross_entropy_at_logit (z p : R) :
  0 < p < 1 ->
  K.sigmoid_cross_entropy_with_logits z (ln (p / (1 - p))) = cross_entropy z p.
Proof.
  intros Hp. unfold K.sigmoid_cross_entropy_with_logits, cross_entropy.
  assert (Hq : 0 < 1 - p) by lra.
  assert (Hodds : 0 < p / (1 - p)) by (apply Rdiv_lt_0_compat; lra).
  assert (Hl : ln (p / (1 - p)) = ln p - ln (1 - p)).
  { unfold Rdiv. rewrite ln_mult, ln_Rinv; try lra. now apply Rinv_0_lt_compat. }
  set (x := ln (p / (1 - p))) in *.
  assert (Hex : exp x = p / (1 - p)) by (unfold x; now apply exp_ln).
  destruct (Rle_dec 0 x) as [Hx|Hx].
  - rewrite Rmax_left by exact Hx. rewrite Rabs_right by lra.
    rewrite exp_Ropp, Hex.
    replace (1 + / (p / (1 - p))) with (/ p) by (field; lra).
    rewrite ln_Rinv by lra. rewrite Hl. ring.
  - rewrite Rmax_right by lra. rewrite Rabs_left by lra.
    rewrite Ropp_involutive, Hex.
    replace (1 + p / (1 - p)) with (/ (1 - p)) by (field; lra).
    rewrite ln_Rinv by lra. rewrite Hl. ring.
Qed.

Lemma binary_crossentropy1_cross_entropy (target output : R) :
  K.binary_crossentropy1 target output
  = cross_entropy target (K.clip_by_value output K.epsilon (1 - K.epsilon)).
Proof.
  unfold K.binary_crossentropy1.
  apply sigmoid_cross_entropy_at_logit, clip_probability.
Qed.

Lemma batch_flatten_eq (x : tensor) (b : nat) (rest : list nat) :
  dims x = b :: rest -> numel rest <> 0%nat -> wf x ->
  K.batch_flatten x = Some (mkTensor [b; numel rest] (elems x)).
Proof.
  intros E Hn Hx. unfold wf in Hx. rewrite E, numel_cons in Hx.
  unfold K.batch_flatten. rewrite E. cbn [tl].
  destruct (Nat.eqb_spec (numel rest) 0) as [H0|_]; [contradiction|].
  now rewrite Hx, Nat.div_mul.
Qed.

(** The reconstruction term on a batch of [b] images, entry by entry. *)
Lemma rc_loss_eq (x t_decoded : tensor) (b : nat) (rest : list nat) :
  dims x = b :: rest -> dims t_decoded = b :: rest -> numel rest <> 0%nat ->
  wf x -> wf t_decoded ->
  rc_loss x t_decoded
  = Some (mkTensor [b]
      (map (fun i => Rsum (map (fun p =>
                K.binary_crossentropy1 (item x (i * numel rest + p))
                                       (item t_decoded (i * numel rest + p)))
              (seq 0 (numel rest))))
           (seq 0 b))).
Proof.
  intros Ex Et Hn Hx Ht. unfold rc_loss.
  rewrite (batch_flatten_eq x b rest), (batch_flatten_eq t_decoded b rest) by assumption.
  cbn [obind]. unfold K.binary_crossentropy.
  rewrite map2_same_shape by reflexivity. cbn [obind dims elems].
  unfold wf in Hx, Ht. rewrite Ex, numel_cons in Hx. rewrite Et, numel_cons in Ht.
  rewrite sum_rank2 by (rewrite length_zipWith; lia).
  do 2 f_equal. apply map_ext_in. intros i Hi. apply in_seq in Hi.
  f_equal. apply map_ext_in. intros p Hp. apply in_seq in Hp.
  assert (Hk : (i * numel rest + p < b * numel rest)%nat) by (apply row_index_bound; lia).
  rewrite nth_zipWith by lia. reflexivity.
Qed.

(** C7: when the pixels of the images and the entries of the
    reconstructions are all in [0, 1], the reconstruction term of every
    example, the sum over its pixels of the binary cross-entropy of the
    (clipped) reconstructed probability against the pixel, is non-negative. *)
Theorem rc_loss_nonneg (x t_decoded : tensor) (b : nat) (rest : list nat) :
  dims x = b :: rest -> dims t_decoded = b :: rest -> numel rest <> 0%nat ->
  wf x -> wf t_decoded ->
  (forall k : nat, (k < numel (b :: rest))%nat -> 0 <= item x k <= 1) ->
  (forall k : nat, (k < numel (b :: rest))%nat -> 0 <= item t_decoded k <= 1) ->
  exists rc : tensor,
    rc_loss x t_decoded = Some rc /\ dims rc = [b] /\
    forall i : nat, (i < b)%nat ->
      item rc i = Rsum (map (fun p =>
          cross_entropy (item x (i * numel rest + p))
            (K.clip_by_value (item t_decoded (i * numel rest + p)) K.epsilon (1 - K.epsilon)))
          (seq 0 (numel rest))) /\
      0 <= item rc i.
Proof.
  intros Ex Et Hn Hx Ht Px Pt.
  eexists. split; [apply (rc_loss_eq _ _ b rest); assumption|]. split; [reflexivity|].
  intros i Hi. rewrite item_mkTensor, nth_map_seq by exact Hi. split.
  - f_equal. apply map_ext. intros p. apply binary_crossentropy1_cross_entropy.
  - apply Rsum_map_nonneg. intros p Hp. apply in_seq in Hp.
    apply binary_crossentropy1_nonneg, Px.
    rewrite numel_cons. apply row_index_bound; lia.
Qed.

Lemma rc_loss_nonneg_witness :
  exists rc : tensor,
    rc_loss (mkTensor [1; 1; 2; 1]%nat [0; 1]) (mkTensor [1; 1; 2; 1]%nat [1; 0]) = Some rc /\
    dims rc = [1]%nat /\
    forall i : nat, (i < 1)%nat ->
      item rc i = Rsum (map (fun p =>
          cross_entropy (item (mkTensor [1; 1; 2; 1]%nat [0; 1]) (i * numel [1; 2; 1]%nat + p))
            (K.clip_by_value (item (mkTensor [1; 1; 2; 1]%nat [1; 0]) (i * numel [1; 2; 1]%nat + p))
               K.epsilon (1 - K.epsilon)))
          (seq 0 (numel [1; 2; 1]%nat))) /\
      0 <= item rc i.
Proof.
  apply (rc_loss_nonneg (mkTensor [1; 1; 2; 1]%nat [0; 1]) (mkTensor [1; 1; 2; 1]%nat [1; 0])
           1 [1; 2; 1]%nat);
    try reflexivity; try (simpl; lia);
    intros k Hk; simpl in Hk; destruct k as [|[|k]]; try lia; unfold item; simpl; lra.
Defined.

(** ** The loss *)

Lemma zipWith_map_map {A : Type} (h : R -> R -> R) (f g : A -> R) (l : list A) :
  zipWith h (map f l) (map g l) = map (fun a => h (f a) (g a)) l.
Proof. unfold zipWith. induction l as [|a l IH]; simpl; [reflexivity|]. now rewrite IH. Qed.

(** The loss on a batch of [b] examples, from the entries of its arguments
    and of the two globals it reads. *)
Lemma neg_variational_lower_bound_eq (G : globals) (x t_decoded t_mean t_log_var : tensor)
    (b d : nat) (rest : list nat) :
  global_tensor G "t_mean" = Some t_mean ->
  global_tensor G "t_log_var" = Some t_log_var ->
  dims x = b :: rest -> dims t_decoded = b :: rest -> numel rest <> 0%nat ->
  wf x -> wf t_decoded ->
  dims t_mean = [b; d] -> dims t_log_var = [b; d] -> wf t_mean -> wf t_log_var ->
  neg_variational_lower_bound G x t_decoded
  = Some (mkTensor []
      [Rsum (map (fun i =>
           Rsum (map (fun p =>
               K.binary_crossentropy1 (item x (i * numel rest + p))
                                      (item t_decoded (i * numel rest + p)))
             (seq 0 (numel rest)))
           + -0.5 * Rsum (map (fun j =>
               1 + item t_log_var (i * d + j)
                 - item t_mean (i * d + j) * item t_mean (i * d + j)
                 - exp (item t_log_var (i * d + j))) (seq 0 d)))
         (seq 0 b)) / INR b]).
Proof.
  intros Gm Gv Ex Et Hn Hx Ht Em Ev Hm Hv. unfold neg_variational_lower_bound.
  rewrite (rc_loss_eq x t_decoded b rest) by assumption. cbn [obind].
  rewrite Gv, Gm. cbn [obind].
  rewrite (kl_loss_eq t_mean t_log_var b d) by assumption. cbn [obind].
  unfold tadd. rewrite map2_same_shape by reflexivity. cbn [obind dims elems].
  unfold K.mean. cbn [elems].
  rewrite zipWith_map_map, length_map, length_seq. reflexivity.
Qed.

(** C3: the scalar the loss returns is the arithmetic mean over the batch
    of (reconstruction term + KL term) of each example, added unweighted; the
    reconstruction term of an example is the sum over its pixels of the
    binary cross-entropy of the (clipped) reconstructed probability against
    the original pixel.  The mean and the log variance are the values of the
    globals [t_mean] and [t_log_var]. *)
Theorem loss_is_batch_mean (G : globals) (x t_decoded t_mean t_log_var : tensor)
    (b d : nat) (rest : list nat) :
  global_tensor G "t_mean" = Some t_mean ->
  global_tensor G "t_log_var" = Some t_log_var ->
  dims x = b :: rest -> dims t_decoded = b :: rest -> numel rest <> 0%nat ->
  wf x -> wf t_decoded ->
  dims t_mean = [b; d] -> dims t_log_var = [b; d] -> wf t_mean -> wf t_log_var ->
  let n := numel rest in
  let reconstruction (i : nat) : R :=
    Rsum (map (fun p =>
        cross_entropy (item x (i * n + p))
          (K.clip_by_value (item t_decoded (i * n + p)) K.epsilon (1 - K.epsilon)))
      (seq 0 n)) in
  let kl (i : nat) : R :=
    -0.5 * Rsum (map (fun j =>
        1 + item t_log_var (i * d + j) - item t_mean (i * d + j) ^ 2
          - exp (item t_log_var (i * d + j))) (seq 0 d)) in
  exists rc kl_term : tensor,
    rc_loss x t_decoded = Some rc /\ kl_loss t_mean t_log_var = Some kl_term /\
    (forall i : nat, (i < b)%nat -> item rc i = reconstruction i /\ item kl_term i = kl i) /\
    neg_variational_lower_bound G x t_decoded
    = Some (mkTensor [] [Rsum (map (fun i => reconstruction i + kl i) (seq 0 b)) / INR b]).
Proof.
  intros Gm Gv Ex Et Hn Hx Ht Em Ev Hm Hv n reconstruction kl.
  assert (Hrc : forall i, Rsum (map (fun p =>
               K.binary_crossentropy1 (item x (i * n + p)) (item t_decoded (i * n + p)))
             (seq 0 n)) = reconstruction i).
  { intros i. unfold reconstruction. f_equal. apply map_ext. intros p.
    apply binary_crossentropy1_cross_entropy. }
  assert (Hkl : forall i, -0.5 * Rsum (map (fun j =>
               1 + item t_log_var (i * d + j)
                 - item t_mean (i * d + j) * item t_mean (i * d + j)
                 - exp (item t_log_var (i * d + j))) (seq 0 d)) = kl i).
  { intros i. unfold kl. do 2 f_equal. apply map_ext. intros j. ring. }
  do 2 eexists.
  split; [apply (rc_loss_eq _ _ b rest); assumption|].
  split; [apply (kl_loss_eq _ _ b d); assumption|].
  split.
  - intros i Hi. rewrite !item_mkTensor, !nth_map_seq by exact Hi.
    split; [exact (Hrc i) | exact (Hkl i)].
  - rewrite (neg_variational_lower_bound_eq G x t_decoded t_mean t_log_var b d rest)
      by assumption.
    do 5 f_equal. apply map_ext. intros i. fold n. now rewrite Hrc, Hkl.
Qed.

Lemma loss_is_batch_mean_witness :
  let x := mkTensor [1; 1; 2; 1]%nat [0; 1] in
  let t_decoded := mkTensor [1; 1; 2; 1]%nat [1 / 2; 1 / 2] in
  let t_mean := mkTensor [1; 2]%nat [3; -4] in
  let t_log_var := mkTensor [1; 2]%nat [-1; 2] in
  let G := notebook_globals (mkGraph x t_mean t_log_var t_mean t_decoded) in
  let n := numel [1; 2; 1]%nat in
  let reconstruction (i : nat) : R :=
    Rsum (map (fun p =>
        cross_entropy (item x (i * n + p))
          (K.clip_by_value (item t_decoded (i * n + p)) K.epsilon (1 - K.epsilon)))
      (seq 0 n)) in
  let kl (i : nat) : R :=
    -0.5 * Rsum (map (fun j =>
        1 + item t_log_var (i * 2 + j) - item t_mean (i * 2 + j) ^ 2
          - exp (item t_log_var (i * 2 + j))) (seq 0 2)) in
  exists rc kl_term : tensor,
    rc_loss x t_decoded = Some rc /\ kl_loss t_mean t_log_var = Some kl_term /\
    (forall i : nat, (i < 1)%nat -> item rc i = reconstruction i /\ item kl_term i = kl i) /\
    neg_variational_lower_bound G x t_decoded
    = Some (mkTensor [] [Rsum (map (fun i => reconstruction i + kl i) (seq 0 1)) / INR 1]).
Proof.
  intros x t_decoded t_mean t_log_var G.
  apply (loss_is_batch_mean G x t_decoded t_mean t_log_var 1 2 [1; 2; 1]%nat);
    try reflexivity.
  simpl. lia.
Defined.

(** C4, as the code has it: the loss reads the mean and the log variance
    from the globals [t_mean] and [t_log_var] and from nothing else outside
    its two parameters.  Under any two sets of globals that bind these two
    names alike, it returns the same result on the same images and
    reconstructions. *)
Theorem loss_reads_only_mean_and_log_var (G1 G2 : globals) (x t_decoded : tensor) :
  G1 "t_mean"%string = G2 "t_mean"%string ->
  G1 "t_log_var"%string = G2 "t_log_var"%string ->
  neg_variational_lower_bound G1 x t_decoded = neg_variational_lower_bound G2 x t_decoded.
Proof.
  intros Hm Hv. unfold neg_variational_lower_bound, global_tensor.
  now rewrite Hm, Hv.
Qed.

Lemma loss_reads_only_mean_and_log_var_witness :
  let x := mkTensor [1; 1; 1; 1]%nat [1] in
  let t_decoded := mkTensor [1; 1; 1; 1]%nat [1 / 2] in
  let t_mean := mkTensor [1; 1]%nat [0] in
  let t_log_var := mkTensor [1; 1]%nat [0] in
  neg_variational_lower_bound
    (notebook_globals (mkGraph x t_mean t_log_var (mkTensor [1; 1]%nat [5]) t_decoded))
    x t_decoded
  = neg_variational_lower_bound
      (notebook_globals (mkGraph (zeros [1; 1; 1; 1]%nat) t_mean t_log_var
                           (mkTensor [1; 1]%nat [7]) (zeros [1; 1; 1; 1]%nat)))
      x t_decoded.
Proof.
  intros x t_decoded t_mean t_log_var.
  apply loss_reads_only_mean_and_log_var; reflexivity.
Defined.

(** C4, as stated, fails: the loss has no parameter for the mean and the
    log variance, and its result changes with the global [t_mean] while the
    images and the reconstructions stay the same. *)
Lemma loss_depends_on_global_t_mean :
  let x := mkTensor [1; 1; 1; 1]%nat [1] in
  let t_decoded := mkTensor [1; 1; 1; 1]%nat [1 / 2] in
  let t_log_var := mkTensor [1; 1]%nat [0] in
  let t := mkTensor [1; 1]%nat [0] in
  let G1 := notebook_globals (mkGraph x (mkTensor [1; 1]%nat [0]) t_log_var t t_decoded) in
  let G2 := notebook_globals (mkGraph x (mkTensor [1; 1]%nat [1]) t_log_var t t_decoded) in
  neg_variational_lower_bound G1 x t_decoded <> neg_variational_lower_bound G2 x t_decoded.
Proof.
  intros x t_decoded t_log_var t G1 G2.
  rewrite (neg_variational_lower_bound_eq G1 x t_decoded (mkTensor [1; 1]%nat [0])
             t_log_var 1 1 [1; 1; 1]%nat) by (try reflexivity; simpl; lia).
  rewrite (neg_variational_lower_bound_eq G2 x t_decoded (mkTensor [1; 1]%nat [1])
             t_log_var 1 1 [1; 1; 1]%nat) by (try reflexivity; simpl; lia).
  intros H. injection H as H. revert H.
  unfold item. simpl. rewrite exp_0.
  generalize (K.binary_crossentropy1 1 (1 / 2)). intros r H. lra.
Qed.

(** ** Layers and shapes *)

Lemma dims_emit (s : list nat) (a : activation) (w : kernel) (x : tensor) :
  dims (emit s a w x) = s.
Proof. reflexivity. Qed.

Lemma wf_emit (s : list nat) (a : activation) (w : kernel) (x : tensor) : wf (emit s a w x).
Proof. unfold wf, emit; cbn [dims elems]. now rewrite length_map, length_seq. Qed.

Lemma Input_eq (shp : list nat) (x : tensor) (b : nat) :
  dims x = b :: shp -> layers.Input shp x = Some x.
Proof. intros E. unfold layers.Input. now rewrite E, shape_eqb_refl. Qed.

Lemma Dense_eq (units : nat) (a : activation) (w : kernel) (x : tensor) (b d : nat) :
  dims x = [b; d] -> layers.Dense units a w x = Some (emit [b; units] a w x).
Proof. intros E. unfold layers.Dense. now rewrite E. Qed.

Lemma Reshape_eq (target_shape : list nat) (x : tensor) (b : nat) (rest : list nat) :
  dims x = b :: rest -> numel rest = numel target_shape ->
  layers.Reshape target_shape x = Some (mkTensor (b :: target_shape) (elems x)).
Proof. intros E Hn. unfold layers.Reshape. now rewrite E, Hn, Nat.eqb_refl. Qed.

Lemma Conv2D_eq (filters kernel_size : nat) (p : padding) (a : activation)
    (strides : nat * nat) (w : kernel) (x : tensor) (b rows cols channels : nat) :
  dims x = [b; rows; cols; channels] ->
  layers.Conv2D filters kernel_size p a strides w x
  = Some (emit [b; layers.conv_output_length rows kernel_size p (fst strides);
                   layers.conv_output_length cols kernel_size p (snd strides); filters] a w x).
Proof. intros E. unfold layers.Conv2D. now rewrite E. Qed.

Lemma Conv2DTranspose_eq (filters kernel_size : nat) (p : padding) (a : activation)
    (strides : nat * nat) (w : kernel) (x : tensor) (b rows cols channels : nat) :
  dims x = [b; rows; cols; channels] ->
  layers.Conv2DTranspose filters kernel_size p a strides w x
  = Some (emit [b; layers.deconv_length rows (fst strides) kernel_size p;
                   layers.deconv_length cols (snd strides) kernel_size p; filters] a w x).
Proof. intros E. unfold layers.Conv2DTranspose. now rewrite E. Qed.

Lemma sigmoid_range (v : R) : 0 < activate sigmoid v < 1.
Proof.
  unfold activate. pose proof (exp_pos (- v)) as He. split.
  - apply Rinv_0_lt_compat. lra.
  - rewrite <- Rinv_1 at 2. apply Rinv_lt_contravar; lra.
Qed.

Lemma emit_sigmoid_range (s : list nat) (w : kernel) (x : tensor) :
  Forall (fun v => 0 <= v <= 1) (elems (emit s sigmoid w x)).
Proof.
  unfold emit; cbn [elems]. apply Forall_forall. intros v Hv.
  apply in_map_iff in Hv. destruct Hv as [i [<- _]].
  pose proof (sigmoid_range (w x i)). lra.
Qed.

Lemma dense_units_fill_reshape : numel [12544%nat] = numel [14; 14; 64]%nat.
Proof. vm_compute. reflexivity. Qed.

(** ** The decoder *)

(** The decoder on a batch of [b] latent vectors, layer by layer. *)
Lemma create_decoder_eq (W : decoder_weights) (decoder_input : tensor) (b : nat) :
  dims decoder_input = [b; latent_dim] ->
  create_decoder W decoder_input
  = Some (emit [b; 28; 28; 1]%nat sigmoid (dec_conv W)
           (emit [b; 28; 28; 32]%nat relu (dec_deconv W)
              (mkTensor [b; 14; 14; 64]%nat
                 (elems (emit [b; 12544%nat] relu (dec_dense W) decoder_input))))).
Proof.
  intros E. unfold create_decoder.
  rewrite (Input_eq _ _ b) by exact E. cbn [obind].
  rewrite (Dense_eq _ _ _ _ b latent_dim) by exact E. cbn [obind].
  rewrite (Reshape_eq _ _ b [12544%nat]) by (reflexivity || apply dense_units_fill_reshape).
  cbn [obind].
  rewrite (Conv2DTranspose_eq _ _ _ _ _ _ _ b 14 14 64) by reflexivity. cbn [obind].
  rewrite (Conv2D_eq _ _ _ _ _ _ _ b 28 28 32) by reflexivity. cbn [obind].
  reflexivity.
Qed.

(** C9: on every batch of [b] latent vectors of the latent dimensionality,
    whatever the weights, the decoder returns a batch of [b] reconstructions
    shaped like the images, [b; 28; 28; 1], whose entries all lie in [0, 1],
    the last layer's activation being the sigmoid. *)
Theorem decoder_output_shape_and_range (W : decoder_weights) (t : tensor) (b : nat) :
  dims t = [b; latent_dim] ->
  exists t_decoded : tensor,
    create_decoder W t = Some t_decoded /\
    dims t_decoded = b :: image_shape /\
    dims t_decoded = [b; 28; 28; 1]%nat /\
    wf t_decoded /\
    Forall (fun v => 0 <= v <= 1) (elems t_decoded).
Proof.
  intros E.
  eexists. split; [apply (create_decoder_eq W t b E)|].
  split; [reflexivity|]. split; [reflexivity|]. split.
  - apply wf_emit.
  - apply emit_sigmoid_range.
Qed.

Lemma decoder_output_shape_and_range_witness :
  exists t_decoded : tensor,
    create_decoder (mkDecoderWeights (fun _ _ => 0) (fun _ _ => 0) (fun _ _ => 0))
      (zeros [4; 2]%nat) = Some t_decoded /\
    dims t_decoded = 4%nat :: image_shape /\
    dims t_decoded = [4; 28; 28; 1]%nat /\
    wf t_decoded /\
    Forall (fun v => 0 <= v <= 1) (elems t_decoded).
Proof.
  apply (decoder_output_shape_and_range
           (mkDecoderWeights (fun _ _ => 0) (fun _ _ => 0) (fun _ _ => 0))
           (zeros [4; 2]%nat) 4); reflexivity.
Defined.

(** ** The encoder and the composed model *)

Lemma flattened_units_nonzero : numel [14; 14; 64]%nat <> 0%nat.
Proof. vm_compute. discriminate. Qed.

(** The encoder on a batch of [b] images, layer by layer. *)
Lemma create_encoder_eq (W : encoder_weights) (encoder_iput : tensor) (b : nat) :
  dims encoder_iput = b :: image_shape ->
  let x1 := emit [b; 28; 28; 32]%nat relu (enc_conv_1 W) encoder_iput in
  let x2 := emit [b; 14; 14; 64]%nat relu (enc_conv_2 W) x1 in
  let x3 := emit [b; 14; 14; 64]%nat relu (enc_conv_3 W) x2 in
  let x4 := emit [b; 14; 14; 64]%nat relu (enc_conv_4 W) x3 in
  let x5 := mkTensor [b; numel [14; 14; 64]%nat] (elems x4) in
  let x6 := emit [b; 32]%nat relu (enc_dense W) x5 in
  create_encoder W encoder_iput
  = Some (emit [b; latent_dim] linear (enc_mean W) x6,
          emit [b; latent_dim] linear (enc_log_var W) x6).
Proof.
  intros E x1 x2 x3 x4 x5 x6. unfold create_encoder.
  rewrite (Input_eq _ _ b) by exact E. cbn [obind].
  rewrite (Conv2D_eq _ _ _ _ _ _ _ b 28 28 1) by exact E. cbn [obind].
  change (emit _ relu (enc_conv_1 W) encoder_iput) with x1.
  rewrite (Conv2D_eq _ _ _ _ _ _ _ b 28 28 32) by reflexivity. cbn [obind].
  change (emit _ relu (enc_conv_2 W) x1) with x2.
  rewrite (Conv2D_eq _ _ _ _ _ _ _ b 14 14 64) by reflexivity. cbn [obind].
  change (emit _ relu (enc_conv_3 W) x2) with x3.
  rewrite (Conv2D_eq _ _ _ _ _ _ _ b 14 14 64) by reflexivity. cbn [obind].
  change (emit _ relu (enc_conv_4 W) x3) with x4.
  replace (layers.Flatten x4) with (K.batch_flatten x4) by reflexivity.
  rewrite (batch_flatten_eq x4 b [14; 14; 64]%nat)
    by (reflexivity || apply flattened_units_nonzero || apply wf_emit).
  cbn [obind]. fold x5.
  rewrite (Dense_eq _ _ _ _ b (numel [14; 14; 64]%nat)) by reflexivity. cbn [obind].
  fold x6.
  rewrite !(Dense_eq _ _ _ _ b 32) by reflexivity. cbn [obind].
  reflexivity.
Qed.

(** C10: the composed graph is shape-consistent on every batch of [b]
    images, whatever the weights.  The encoder's two heads both have shape
    [b; latent_dim]; the sampler returns that shape and the decoder's input
    layer accepts it.  The decoder's result is the result of its layers in
    turn: the dense layer turns the latent batch into [b; 12544], and
    12544 = 14 * 14 * 64 is exactly what the reshape to [14; 14; 64] needs;
    the stride-2 transposed convolution takes the 14 * 14 grid to 28 * 28;
    the last convolution leaves one channel.  The reconstruction [vae]
    returns has the shape of the images fed, [b; 28; 28; 1]. *)
Theorem vae_shape_consistent (We : encoder_weights) (Wd : decoder_weights)
    (x : tensor) (g : rng) (b : nat) :
  dims x = b :: image_shape ->
  exists (t_mean t_log_var t dense reshaped upsampled t_decoded : tensor) (g' : rng),
    create_encoder We x = Some (t_mean, t_log_var) /\
    dims t_mean = [b; latent_dim] /\ dims t_log_var = [b; latent_dim] /\
    create_sampler [t_mean; t_log_var] g = Some (t, g') /\
    dims t = [b; latent_dim] /\
    layers.Input [latent_dim] t = Some t /\
    layers.Dense 12544 relu (dec_dense Wd) t = Some dense /\
    dims dense = [b; 12544%nat] /\
    (12544 = 14 * 14 * 64)%nat /\
    layers.Reshape [14; 14; 64]%nat dense = Some reshaped /\
    dims reshaped = [b; 14; 14; 64]%nat /\ elems reshaped = elems dense /\
    layers.Conv2DTranspose 32 3 same relu (2, 2)%nat (dec_deconv Wd) reshaped = Some upsampled /\
    dims upsampled = [b; 28; 28; 32]%nat /\
    layers.deconv_length 14 2 3 same = 28%nat /\
    layers.Conv2D 1 3 same sigmoid (1, 1)%nat (dec_conv Wd) upsampled = Some t_decoded /\
    create_decoder Wd t = Some t_decoded /\
    vae We Wd x g = Some (t_decoded, g') /\
    dims t_decoded = dims x /\ dims t_decoded = [b; 28; 28; 1]%nat.
Proof.
  intros E.
  pose proof (create_encoder_eq We x b E) as He. cbv zeta in He.
  match type of He with _ = Some (?m, ?v) => set (t_mean := m) in *; set (t_log_var := v) in * end.
  assert (Es : dims t_mean = dims t_log_var) by reflexivity.
  pose proof (sample_eq t_mean t_log_var g Es) as Hs.
  match type of Hs with _ = Some (?s, ?r) => set (t := s) in *; set (g' := r) in * end.
  assert (Et : dims t = [b; latent_dim]) by reflexivity.
  pose proof (create_decoder_eq Wd t b Et) as Hd.
  set (dense := emit [b; 12544%nat] relu (dec_dense Wd) t) in *.
  set (reshaped := mkTensor [b; 14; 14; 64]%nat (elems dense)) in *.
  set (upsampled := emit [b; 28; 28; 32]%nat relu (dec_deconv Wd) reshaped) in *.
  set (t_decoded := emit [b; 28; 28; 1]%nat sigmoid (dec_conv Wd) upsampled) in *.
  exists t_mean, t_log_var, t, dense, reshaped, upsampled, t_decoded, g'.
  split; [exact He|]. split; [reflexivity|]. split; [reflexivity|].
  split; [exact Hs|]. split; [exact Et|].
  split; [apply (Input_eq _ _ b), Et|].
  split; [apply (Dense_eq _ _ _ _ b latent_dim), Et|].
  split; [reflexivity|].
  split; [vm_compute; reflexivity|].
  split; [apply (Reshape_eq _ _ b [12544%nat]); [reflexivity | apply dense_units_fill_reshape]|].
  split; [reflexivity|]. split; [reflexivity|].
  split; [rewrite (Conv2DTranspose_eq _ _ _ _ _ _ _ b 14 14 64) by reflexivity; reflexivity|].
  split; [reflexivity|]. split; [reflexivity|].
  split; [rewrite (Conv2D_eq _ _ _ _ _ _ _ b 28 28 32) by reflexivity; reflexivity|].
  split; [exact Hd|].
  split.
  - unfold vae, run_graph.
    rewrite (Input_eq _ _ b) by exact E. cbn [obind].
    rewrite He. cbn [obind].
    unfold create_sampler, Lambda in Hs |- *. rewrite Hs. cbn [obind].
    rewrite Hd. reflexivity.
  - split; [rewrite E|]; reflexivity.
Qed.

Lemma vae_shape_consistent_witness :
  let We := mkEncoderWeights (fun _ _ => 0) (fun _ _ => 0) (fun _ _ => 0) (fun _ _ => 0)
              (fun _ _ => 0) (fun _ _ => 0) (fun _ _ => 0) in
  let Wd := mkDecoderWeights (fun _ _ => 0) (fun _ _ => 0) (fun _ _ => 0) in
  let x := zeros (4%nat :: image_shape) in
  let g := mkRng (fun _ => 0) 0 in
  exists (t_mean t_log_var t dense reshaped upsampled t_decoded : tensor) (g' : rng),
    create_encoder We x = Some (t_mean, t_log_var) /\
    dims t_mean = [4%nat; latent_dim] /\ dims t_log_var = [4%nat; latent_dim] /\
    create_sampler [t_mean; t_log_var] g = Some (t, g') /\
    dims t = [4%nat; latent_dim] /\
    layers.Input [latent_dim] t = Some t /\
    layers.Dense 12544 relu (dec_dense Wd) t = Some dense /\
    dims dense = [4%nat; 12544%nat] /\
    (12544 = 14 * 14 * 64)%nat /\
    layers.Reshape [14; 14; 64]%nat dense = Some reshaped /\
    dims reshaped = [4; 14; 14; 64]%nat /\ elems reshaped = elems dense /\
    layers.Conv2DTranspose 32 3 same relu (2, 2)%nat (dec_deconv Wd) reshaped = Some upsampled /\
    dims upsampled = [4; 28; 28; 32]%nat /\
    layers.deconv_length 14 2 3 same = 28%nat /\
    layers.Conv2D 1 3 same sigmoid (1, 1)%nat (dec_conv Wd) upsampled = Some t_decoded /\
    create_decoder Wd t = Some t_decoded /\
    vae We Wd x g = Some (t_decoded, g') /\
    dims t_decoded = dims x /\ dims t_decoded = [4; 28; 28; 1]%nat.
Proof.
  intros We Wd x g.
  apply (vae_shape_consistent We Wd x g 4). reflexivity.
Defined.

(** ** One training step *)

Lemma image_pixels_nonzero : numel image_shape <> 0%nat.
Proof. vm_compute. discriminate. Qed.

(** On a batch of [b] images the graph has values: the encoder's outputs
    and the reconstructions are well-formed tensors of the expected shapes. *)
Lemma run_graph_eq (We : encoder_weights) (Wd : decoder_weights) (x : tensor) (g : rng) (b : nat) :
  dims x = b :: image_shape ->
  exists G : graph,
    run_graph We Wd x g = Some (G, mkRng (draws g) (pos g + numel [b; latent_dim])) /\
    g_x G = x /\
    dims (g_t_mean G) = [b; latent_dim] /\ wf (g_t_mean G) /\
    dims (g_t_log_var G) = [b; latent_dim] /\ wf (g_t_log_var G) /\
    dims (g_t_decoded G) = b :: image_shape /\ wf (g_t_decoded G).
Proof.
  intros E.
  pose proof (create_encoder_eq We x b E) as He. cbv zeta in He.
  match type of He with _ = Some (?m, ?v) => set (t_mean := m) in *; set (t_log_var := v) in * end.
  assert (Es : dims t_mean = dims t_log_var) by reflexivity.
  pose proof (sample_eq t_mean t_log_var g Es) as Hs.
  match type of Hs with _ = Some (?s, _) => set (t := s) in * end.
  assert (Et : dims t = [b; latent_dim]) by reflexivity.
  pose proof (create_decoder_eq Wd t b Et) as Hd.
  match type of Hd with _ = Some ?r => set (t_decoded := r) in * end.
  exists (mkGraph x t_mean t_log_var t t_decoded). split.
  - unfold run_graph. rewrite (Input_eq _ _ b) by exact E. cbn [obind].
    rewrite He. cbn [obind]. unfold create_sampler, Lambda. rewrite Hs. cbn [obind].
    rewrite Hd. reflexivity.
  - cbn [g_x g_t_mean g_t_log_var g_t_decoded].
    repeat split; try reflexivity; apply wf_emit.
Qed.

(** The loss of a training step on a batch of [b] images has a value, a
    scalar: the loss function finds [t_mean] and [t_log_var] among the
    globals, bound to the encoder's outputs for that batch. *)
Lemma vae_loss_defined (We : encoder_weights) (Wd : decoder_weights) (x : tensor) (g : rng) (b : nat) :
  dims x = b :: image_shape -> wf x ->
  exists (l : R) (g' : rng), vae_loss We Wd x g = Some (mkTensor [] [l], g').
Proof.
  intros E Hx.
  destruct (run_graph_eq We Wd x g b E) as (G & Hrun & Hgx & Em & Hm & Ev & Hv & Ed & Hd).
  unfold vae_loss. rewrite Hrun. cbn [obind].
  rewrite (neg_variational_lower_bound_eq (notebook_globals G) x (g_t_decoded G)
             (g_t_mean G) (g_t_log_var G) b latent_dim image_shape);
    try assumption; try reflexivity; try apply image_pixels_nonzero.
  cbn [obind]. eauto.
Qed.

(** ** Training data *)

Lemma numel_add_channel (s : list nat) : numel (s ++ [1%nat]) = numel s.
Proof.
  induction s as [|n s IH]; [reflexivity|].
  change ((n :: s) ++ [1%nat]) with (n :: (s ++ [1%nat])).
  now rewrite !numel_cons, IH.
Qed.

Lemma byte_scaled_range (v : Byte.byte) : 0 <= INR (Byte.to_nat v) / 255 <= 1.
Proof.
  pose proof (pos_INR (Byte.to_nat v)) as H0.
  pose proof (le_INR _ _ (Byte.to_nat_bounded v)) as H1.
  replace (INR 255) with 255 in H1 by (simpl; lra).
  split.
  - apply Rmult_le_reg_r with 255; [lra|]. unfold Rdiv. rewrite Rmult_assoc, Rinv_l by lra. lra.
  - apply Rmult_le_reg_r with 255; [lra|]. unfold Rdiv. rewrite Rmult_assoc, Rinv_l by lra. lra.
Qed.

Lemma byte_scaled_inj (v w : Byte.byte) :
  INR (Byte.to_nat v) / 255 = INR (Byte.to_nat w) / 255 -> v = w.
Proof.
  intros H.
  assert (Hn : Byte.to_nat v = Byte.to_nat w) by (apply INR_eq; lra).
  pose proof (Byte.of_to_nat v) as Hv. rewrite Hn, Byte.of_to_nat in Hv. congruence.
Qed.

Lemma map_inj {A B : Type} (f : A -> B) (l l' : list A) :
  (forall a a', f a = f a' -> a = a') -> map f l = map f l' -> l = l'.
Proof.
  intros Hf. revert l'. induction l as [|a l IH]; intros [|a' l'] H; simpl in H;
    try discriminate; [reflexivity|].
  injection H as Ha Hl. f_equal; [now apply Hf | now apply IH].
Qed.

(** What [normalize] returns on an array whose entries fill its shape. *)
Lemma normalize_eq (a : uint8_array) :
  u_wf a ->
  normalize a
  = Some (mkTensor (u_dims a ++ [1%nat])
            (map (fun v => v / 255) (map (fun v => INR (Byte.to_nat v)) (u_elems a)))).
Proof.
  intros Ha. unfold u_wf in Ha. unfold normalize, reshape, sdiv, astype_float32, map1.
  cbn [dims elems]. rewrite numel_add_channel, !length_map, <- Ha, Nat.eqb_refl.
  reflexivity.
Qed.

(** X1: normalizing an array of bytes keeps every entry, scaled by 1/255,
    in its place, appends the channel axis to the shape, and leaves every
    pixel in [0, 1]. *)
Theorem normalize_range (a : uint8_array) :
  u_wf a ->
  exists t : tensor,
    normalize a = Some t /\ dims t = u_dims a ++ [1%nat] /\ wf t /\
    (forall k : nat, (k < length (u_elems a))%nat ->
       item t k = INR (Byte.to_nat (nth k (u_elems a) Byte.x00)) / 255) /\
    (forall k : nat, 0 <= item t k <= 1).
Proof.
  intros Ha. eexists. split; [apply normalize_eq, Ha|]. split; [reflexivity|].
  split; [|split].
  - unfold wf; cbn [dims elems]. rewrite numel_add_channel, !length_map. exact Ha.
  - intros k Hk. rewrite item_mkTensor, map_map.
    rewrite (nth_indep _ 0 (INR (Byte.to_nat Byte.x00) / 255)) by now rewrite length_map.
    apply (map_nth (fun v => INR (Byte.to_nat v) / 255)).
  - intros k. rewrite item_mkTensor, map_map.
    destruct (Nat.lt_ge_cases k (length (u_elems a))) as [Hk|Hk].
    + rewrite (nth_indep _ 0 (INR (Byte.to_nat Byte.x00) / 255)) by now rewrite length_map.
      rewrite (map_nth (fun v => INR (Byte.to_nat v) / 255)). apply byte_scaled_range.
    + rewrite nth_overflow by now rewrite length_map. lra.
Qed.

Lemma normalize_range_witness :
  exists t : tensor,
    normalize (mkUint8 [1; 1; 2]%nat [Byte.x00; Byte.xff]) = Some t /\
    dims t = [1; 1; 2]%nat ++ [1%nat] /\ wf t /\
    (forall k : nat, (k < length [Byte.x00; Byte.xff])%nat ->
       item t k = INR (Byte.to_nat (nth k [Byte.x00; Byte.xff] Byte.x00)) / 255) /\
    (forall k : nat, 0 <= item t k <= 1).
Proof.
  apply (normalize_range (mkUint8 [1; 1; 2]%nat [Byte.x00; Byte.xff])). reflexivity.
Defined.

(** X2: normalizing loses nothing: two arrays with the same normalized
    tensor are the same array. *)
Theorem normalize_injective (a a' : uint8_array) (t : tensor) :
  normalize a = Some t -> normalize a' = Some t -> a = a'.
Proof.
  unfold normalize, reshape, sdiv, astype_float32, map1. cbn [dims elems].
  destruct (numel (u_dims a ++ [1%nat]) =? _)%nat; [|discriminate].
  destruct (numel (u_dims a' ++ [1%nat]) =? _)%nat; [|discriminate].
  intros H H'. rewrite <- H in H'. injection H' as Hd He.
  apply app_inj_tail in Hd. destruct Hd as [Hd _].
  rewrite !map_map in He. apply map_inj in He; [|intros v w; apply byte_scaled_inj].
  destruct a, a'; simpl in *. congruence.
Qed.

Lemma normalize_injective_witness :
  mkUint8 [1; 1; 2]%nat [Byte.x00; Byte.xff] = mkUint8 [1; 1; 2]%nat [Byte.x00; Byte.xff].
Proof.
  apply (normalize_injective _ _
           (mkTensor [1; 1; 2; 1]%nat [INR 0 / 255; INR 255 / 255])); reflexivity.
Defined.

Lemma normalize_item_range (a : uint8_array) (k : nat) :
  0 <= nth k (map (fun v => v / 255) (map (fun v => INR (Byte.to_nat v)) (u_elems a))) 0 <= 1.
Proof.
  rewrite map_map.
  destruct (Nat.lt_ge_cases k (length (u_elems a))) as [Hk|Hk].
  - rewrite (nth_indep _ 0 (INR (Byte.to_nat Byte.x00) / 255)) by now rewrite length_map.
    rewrite (map_nth (fun v => INR (Byte.to_nat v) / 255)). apply byte_scaled_range.
  - rewrite nth_overflow by now rewrite length_map. lra.
Qed.

(** ** Sign of the loss *)

Lemma batch_mean_nonneg (f : nat -> R) (b : nat) :
  (0 < b)%nat -> (forall i : nat, (i < b)%nat -> 0 <= f i) ->
  0 <= Rsum (map f (seq 0 b)) / INR b.
Proof.
  intros Hb Hf. apply Rmult_le_pos.
  - apply Rsum_map_nonneg. intros i Hi. apply in_seq in Hi. apply Hf. lia.
  - left. apply Rinv_0_lt_compat, lt_0_INR, Hb.
Qed.

Lemma example_terms_nonneg (x t_decoded t_mean t_log_var : tensor) (n d i : nat) :
  (forall k : nat, 0 <= item x k <= 1) ->
  0 <= Rsum (map (fun p =>
           K.binary_crossentropy1 (item x (i * n + p)) (item t_decoded (i * n + p)))
         (seq 0 n))
       + -0.5 * Rsum (map (fun j =>
           1 + item t_log_var (i * d + j)
             - item t_mean (i * d + j) * item t_mean (i * d + j)
             - exp (item t_log_var (i * d + j))) (seq 0 d)).
Proof.
  intros Px. apply Rplus_le_le_0_compat.
  - apply Rsum_map_nonneg. intros p _. apply binary_crossentropy1_nonneg, Px.
  - rewrite <- Rsum_map_scale. apply Rsum_map_nonneg. intros j _.
    replace (item t_mean (i * d + j) * item t_mean (i * d + j))
      with (item t_mean (i * d + j) ^ 2) by ring.
    apply kl_summand_nonpos.
Qed.

(** X3: on a non-empty batch of images with pixels in [0, 1], whatever the
    reconstructions and whatever mean and log variance the globals hold for
    the batch, the loss is a scalar that is non-negative. *)
Theorem loss_nonneg (G : globals) (x t_decoded t_mean t_log_var : tensor)
    (b d : nat) (rest : list nat) :
  global_tensor G "t_mean" = Some t_mean ->
  global_tensor G "t_log_var" = Some t_log_var ->
  dims x = b :: rest -> dims t_decoded = b :: rest -> numel rest <> 0%nat ->
  wf x -> wf t_decoded ->
  dims t_mean = [b; d] -> dims t_log_var = [b; d] -> wf t_mean -> wf t_log_var ->
  (0 < b)%nat ->
  (forall k : nat, 0 <= item x k <= 1) ->
  exists l : R,
    neg_variational_lower_bound G x t_decoded = Some (mkTensor [] [l]) /\ 0 <= l.
Proof.
  intros Gm Gv Ex Et Hn Hx Ht Em Ev Hm Hv Hb Px.
  eexists. split.
  - apply (neg_variational_lower_bound_eq G x t_decoded t_mean t_log_var b d rest);
      assumption.
  - apply batch_mean_nonneg; [exact Hb|]. intros i _.
    now apply example_terms_nonneg.
Qed.

Lemma loss_nonneg_witness :
  exists l : R,
    neg_variational_lower_bound
      (notebook_globals (mkGraph (mkTensor [1; 1; 2; 1]%nat [0; 1])
                           (mkTensor [1; 2]%nat [3; -4]) (mkTensor [1; 2]%nat [-1; 2])
                           (mkTensor [1; 2]%nat [3; -4])
                           (mkTensor [1; 1; 2; 1]%nat [1 / 2; 1 / 2])))
      (mkTensor [1; 1; 2; 1]%nat [0; 1]) (mkTensor [1; 1; 2; 1]%nat [1 / 2; 1 / 2])
    = Some (mkTensor [] [l]) /\ 0 <= l.
Proof.
  apply (loss_nonneg _ (mkTensor [1; 1; 2; 1]%nat [0; 1])
           (mkTensor [1; 1; 2; 1]%nat [1 / 2; 1 / 2])
           (mkTensor [1; 2]%nat [3; -4]) (mkTensor [1; 2]%nat [-1; 2]) 1 2 [1; 2; 1]%nat);
    try reflexivity; try (simpl; lia).
  intros k. unfold item; simpl. destruct k as [|[|[|k]]]; lra.
Defined.

(** X4: a training step on real data.  For a non-empty batch of [b] MNIST
    images given as bytes, whatever the weights and the state of the random
    generator: normalizing gives a tensor of shape [b; 28; 28; 1], the model
    accepts it, and the loss of the step, with the images as their own
    targets, is a non-negative scalar. *)
Theorem training_step_loss_nonneg (We : encoder_weights) (Wd : decoder_weights)
    (a : uint8_array) (g : rng) (b : nat) :
  u_dims a = [b; 28; 28]%nat -> u_wf a -> (0 < b)%nat ->
  exists (x : tensor) (l : R) (g' : rng),
    normalize a = Some x /\ dims x = b :: image_shape /\
    vae_loss We Wd x g = Some (mkTensor [] [l], g') /\ 0 <= l.
Proof.
  intros Ea Ha Hb.
  pose proof (normalize_eq a Ha) as Hn.
  match type of Hn with _ = Some ?t => set (x := t) in * end.
  assert (Ex : dims x = b :: image_shape) by (unfold x; cbn [dims]; now rewrite Ea).
  assert (Hx : wf x).
  { unfold wf, x; cbn [dims elems]. rewrite numel_add_channel, !length_map. exact Ha. }
  destruct (run_graph_eq We Wd x g b Ex) as (G & Hrun & Hgx & Em & Hm & Ev & Hv & Ed & Hd).
  exists x. eexists. eexists. split; [exact Hn|]. split; [exact Ex|]. split.
  - unfold vae_loss. rewrite Hrun. cbn [obind].
    rewrite (neg_variational_lower_bound_eq (notebook_globals G) x (g_t_decoded G)
               (g_t_mean G) (g_t_log_var G) b latent_dim image_shape);
      try assumption; try reflexivity; try apply image_pixels_nonzero.
  - apply batch_mean_nonneg; [exact Hb|]. intros i _.
    apply example_terms_nonneg. intros k. apply normalize_item_range.
Qed.

Lemma training_step_loss_nonneg_witness :
  exists (x : tensor) (l : R) (g' : rng),
    normalize (mkUint8 [1; 28; 28]%nat (repeat Byte.x80 784)) = Some x /\
    dims x = 1%nat :: image_shape /\
    vae_loss
      (mkEncoderWeights (fun _ _ => 0) (fun _ _ => 0) (fun _ _ => 0) (fun _ _ => 0)
         (fun _ _ => 0) (fun _ _ => 0) (fun _ _ => 0))
      (mkDecoderWeights (fun _ _ => 0) (fun _ _ => 0) (fun _ _ => 0))
      x (mkRng (fun _ => 0) 0) = Some (mkTensor [] [l], g') /\ 0 <= l.
Proof.
  apply (training_step_loss_nonneg _ _ (mkUint8 [1; 28; 28]%nat (repeat Byte.x80 784)) _ 1);
    [reflexivity | reflexivity | lia].
Defined.

(** ** More on the reconstruction term *)

Lemma Rsum_map_le {A : Type} (f h : A -> R) (l : list A) :
  (forall a, In a l -> f a <= h a) -> Rsum (map f l) <= Rsum (map h l).
Proof.
  induction l as [|a l IH]; intros H; simpl; [lra|].
  assert (f a <= h a) by (apply H; now left).
  assert (Rsum (map f l) <= Rsum (map h l)) by (apply IH; intros a' Ha'; apply H; now right).
  lra.
Qed.

Lemma ln_le_minus_1 (y : R) : 0 < y -> ln y <= y - 1.
Proof.
  intros Hy. pose proof (exp_ineq1_le (ln y)) as H. rewrite exp_ln in H by exact Hy. lra.
Qed.

Lemma ln_le_mono (x y : R) : 0 < x -> x <= y -> ln x <= ln y.
Proof.
  intros Hx [Hlt|<-]; [|lra]. left. now apply ln_increasing.
Qed.

Lemma clip_by_value_side (z p : R) :
  K.epsilon <= p <= 1 - K.epsilon ->
  0 <= (p - K.clip_by_value z K.epsilon (1 - K.epsilon))
       * (K.clip_by_value z K.epsilon (1 - K.epsilon) - z).
Proof.
  intros Hp. pose proof epsilon_bounds as He. unfold K.clip_by_value.
  destruct (Rle_dec z (1 - K.epsilon)) as [H1|H1].
  - rewrite Rmin_left by exact H1.
    destruct (Rle_dec z K.epsilon) as [H2|H2].
    + rewrite Rmax_right by exact H2. nra.
    + rewrite Rmax_left by lra. nra.
  - rewrite Rmin_right by lra. rewrite Rmax_left by lra. nra.
Qed.

(** Against a target in [0, 1], no probability in the clipping range does
    better than the clipped target itself. *)
Lemma cross_entropy_minimal (z p : R) :
  0 <= z <= 1 -> K.epsilon <= p <= 1 - K.epsilon ->
  cross_entropy z (K.clip_by_value z K.epsilon (1 - K.epsilon)) <= cross_entropy z p.
Proof.
  intros Hz Hp. pose proof epsilon_bounds as He.
  pose proof (clip_by_value_side z p Hp) as Hside.
  pose proof (clip_probability z) as Hq.
  set (q := K.clip_by_value z K.epsilon (1 - K.epsilon)) in *.
  unfold cross_entropy.
  assert (H1 : ln p - ln q <= p / q - 1).
  { replace (ln p - ln q) with (ln (p / q)).
    - apply ln_le_minus_1. apply Rdiv_lt_0_compat; lra.
    - unfold Rdiv. rewrite ln_mult, ln_Rinv; try lra. apply Rinv_0_lt_compat; lra. }
  assert (H2 : ln (1 - p) - ln (1 - q) <= (1 - p) / (1 - q) - 1).
  { replace (ln (1 - p) - ln (1 - q)) with (ln ((1 - p) / (1 - q))).
    - apply ln_le_minus_1. apply Rdiv_lt_0_compat; lra.
    - unfold Rdiv. rewrite ln_mult, ln_Rinv; try lra. apply Rinv_0_lt_compat; lra. }
  assert (H3 : z * (p / q - 1) + (1 - z) * ((1 - p) / (1 - q) - 1) <= 0).
  { replace (z * (p / q - 1) + (1 - z) * ((1 - p) / (1 - q) - 1))
      with (- ((p - q) * (q - z)) / (q * (1 - q))) by (field; lra).
    assert (Hinv : 0 < / (q * (1 - q))) by (apply Rinv_0_lt_compat; nra).
    unfold Rdiv. set (A := (p - q) * (q - z)) in *. set (I := / (q * (1 - q))) in *.
    nra. }
  assert (H4 : z * (ln p - ln q) <= z * (p / q - 1)) by (apply Rmult_le_compat_l; lra).
  assert (H5 : (1 - z) * (ln (1 - p) - ln (1 - q)) <= (1 - z) * ((1 - p) / (1 - q) - 1))
    by (apply Rmult_le_compat_l; lra).
  lra.
Qed.

(** Against a target in [0, 1], the cross-entropy of a probability in the
    clipping range lies between [-ln(1 - epsilon)] and [-ln(epsilon)]. *)
Lemma cross_entropy_bounds (z p : R) :
  0 <= z <= 1 -> K.epsilon <= p <= 1 - K.epsilon ->
  - ln (1 - K.epsilon) <= cross_entropy z p <= - ln K.epsilon.
Proof.
  intros Hz Hp. pose proof epsilon_bounds as He. unfold cross_entropy.
  assert (ln K.epsilon <= ln p) by (apply ln_le_mono; lra).
  assert (ln p <= ln (1 - K.epsilon)) by (apply ln_le_mono; lra).
  assert (ln K.epsilon <= ln (1 - p)) by (apply ln_le_mono; lra).
  assert (ln (1 - p) <= ln (1 - K.epsilon)) by (apply ln_le_mono; lra).
  split; nra.
Qed.

Lemma Rsum_map_seq_bounds (f : nat -> R) (lo hi : R) (n : nat) :
  (forall p : nat, lo <= f p <= hi) ->
  INR n * lo <= Rsum (map f (seq 0 n)) <= INR n * hi.
Proof.
  intros Hf. generalize 0%nat as s.
  induction n as [|n IH]; intros s.
  - simpl. lra.
  - rewrite S_INR. cbn [seq map Rsum fold_right].
    specialize (IH (S s)). specialize (Hf s). unfold Rsum in IH. lra.
Qed.

(** X12: for images with pixels in [0, 1], no reconstruction gives an
    example a smaller reconstruction term than the images themselves do. *)
Theorem rc_loss_minimal_at_images (x t_decoded : tensor) (b : nat) (rest : list nat) :
  dims x = b :: rest -> dims t_decoded = b :: rest -> numel rest <> 0%nat ->
  wf x -> wf t_decoded ->
  (forall k : nat, 0 <= item x k <= 1) ->
  exists rc rc_best : tensor,
    rc_loss x t_decoded = Some rc /\ rc_loss x x = Some rc_best /\
    forall i : nat, (i < b)%nat -> item rc_best i <= item rc i.
Proof.
  intros Ex Et Hn Hx Ht Px.
  do 2 eexists.
  split; [apply (rc_loss_eq _ _ b rest); assumption|].
  split; [apply (rc_loss_eq _ _ b rest); assumption|].
  intros i Hi. rewrite !item_mkTensor, !nth_map_seq by exact Hi.
  apply Rsum_map_le. intros p _.
  rewrite !binary_crossentropy1_cross_entropy.
  apply cross_entropy_minimal; [apply Px|].
  pose proof epsilon_bounds. apply clip_by_value_bounds. lra.
Qed.

Lemma rc_loss_minimal_at_images_witness :
  exists rc rc_best : tensor,
    rc_loss (mkTensor [1; 1; 2; 1]%nat [0; 1]) (mkTensor [1; 1; 2; 1]%nat [1; 0]) = Some rc /\
    rc_loss (mkTensor [1; 1; 2; 1]%nat [0; 1]) (mkTensor [1; 1; 2; 1]%nat [0; 1])
      = Some rc_best /\
    forall i : nat, (i < 1)%nat -> item rc_best i <= item rc i.
Proof.
  apply (rc_loss_minimal_at_images (mkTensor [1; 1; 2; 1]%nat [0; 1])
           (mkTensor [1; 1; 2; 1]%nat [1; 0]) 1 [1; 2; 1]%nat);
    try reflexivity; try (simpl; lia).
  intros k. unfold item; simpl. destruct k as [|[|[|k]]]; lra.
Defined.

(** X13: for images with pixels in [0, 1], the reconstruction term of an
    example with [n] pixels is strictly positive and bounded: it lies
    between [n * -ln(1 - epsilon)] and [n * -ln(epsilon)], however bad or
    good the reconstruction, because the reconstructed probabilities are
    clipped to [[epsilon, 1 - epsilon]]. *)
Theorem rc_loss_bounds (x t_decoded : tensor) (b : nat) (rest : list nat) :
  dims x = b :: rest -> dims t_decoded = b :: rest -> numel rest <> 0%nat ->
  wf x -> wf t_decoded ->
  (forall k : nat, 0 <= item x k <= 1) ->
  exists rc : tensor,
    rc_loss x t_decoded = Some rc /\
    0 < - ln (1 - K.epsilon) /\
    forall i : nat, (i < b)%nat ->
      INR (numel rest) * - ln (1 - K.epsilon) <= item rc i <= INR (numel rest) * - ln K.epsilon /\
      0 < item rc i.
Proof.
  intros Ex Et Hn Hx Ht Px. pose proof epsilon_bounds as He.
  assert (Hpos : 0 < - ln (1 - K.epsilon)).
  { assert (ln (1 - K.epsilon) < ln 1) by (apply ln_increasing; lra).
    rewrite ln_1 in *. lra. }
  eexists. split; [apply (rc_loss_eq _ _ b rest); assumption|]. split; [exact Hpos|].
  intros i Hi. rewrite !item_mkTensor, !nth_map_seq by exact Hi.
  match goal with |- _ <= ?s <= _ /\ _ => assert (Hb :
    INR (numel rest) * - ln (1 - K.epsilon) <= s <= INR (numel rest) * - ln K.epsilon) end.
  { apply Rsum_map_seq_bounds. intros p.
    rewrite binary_crossentropy1_cross_entropy.
    apply cross_entropy_bounds; [apply Px|].
    apply clip_by_value_bounds. lra. }
  split; [exact Hb|].
  assert (0 < INR (numel rest)) by (apply lt_0_INR; lia).
  assert (0 < INR (numel rest) * - ln (1 - K.epsilon)) by (apply Rmult_lt_0_compat; lra).
  lra.
Qed.

Lemma rc_loss_bounds_witness :
  exists rc : tensor,
    rc_loss (mkTensor [1; 1; 2; 1]%nat [0; 1]) (mkTensor [1; 1; 2; 1]%nat [1; 0]) = Some rc /\
    0 < - ln (1 - K.epsilon) /\
    forall i : nat, (i < 1)%nat ->
      INR (numel [1; 2; 1]%nat) * - ln (1 - K.epsilon) <= item rc i
        <= INR (numel [1; 2; 1]%nat) * - ln K.epsilon /\
      0 < item rc i.
Proof.
  apply (rc_loss_bounds (mkTensor [1; 1; 2; 1]%nat [0; 1])
           (mkTensor [1; 1; 2; 1]%nat [1; 0]) 1 [1; 2; 1]%nat);
    try reflexivity; try (simpl; lia).
  intros k. unfold item; simpl. destruct k as [|[|[|k]]]; lra.
Defined.

(** ** More on the loss *)

Lemma Rsum_map_plus {A : Type} (f h : A -> R) (l : list A) :
  Rsum (map (fun a => f a + h a) l) = Rsum (map f l) + Rsum (map h l).
Proof. induction l as [|a l IH]; simpl; [lra|]. rewrite IH. lra. Qed.

(** X14: averaging after adding is adding the averages: the loss is the
    batch mean of the reconstruction term plus the batch mean of the
    regularization term. *)
Theorem loss_splits_into_means (G : globals) (x t_decoded t_mean t_log_var : tensor)
    (b d : nat) (rest : list nat) :
  global_tensor G "t_mean" = Some t_mean ->
  global_tensor G "t_log_var" = Some t_log_var ->
  dims x = b :: rest -> dims t_decoded = b :: rest -> numel rest <> 0%nat ->
  wf x -> wf t_decoded ->
  dims t_mean = [b; d] -> dims t_log_var = [b; d] -> wf t_mean -> wf t_log_var ->
  exists rc kl : tensor,
    rc_loss x t_decoded = Some rc /\ kl_loss t_mean t_log_var = Some kl /\
    neg_variational_lower_bound G x t_decoded
    = Some (mkTensor [] [item (K.mean rc) 0 + item (K.mean kl) 0]).
Proof.
  intros Gm Gv Ex Et Hn Hx Ht Em Ev Hm Hv.
  do 2 eexists.
  split; [apply (rc_loss_eq _ _ b rest); assumption|].
  split; [apply (kl_loss_eq _ _ b d); assumption|].
  rewrite (neg_variational_lower_bound_eq G x t_decoded t_mean t_log_var b d rest)
    by assumption.
  unfold K.mean. rewrite !item_mkTensor. cbn [elems nth].
  rewrite !length_map, !length_seq, Rsum_map_plus.
  do 3 f_equal. unfold Rdiv. ring.
Qed.

Lemma loss_splits_into_means_witness :
  exists rc kl : tensor,
    rc_loss (mkTensor [1; 1; 2; 1]%nat [0; 1]) (mkTensor [1; 1; 2; 1]%nat [1 / 2; 1 / 2])
      = Some rc /\
    kl_loss (mkTensor [1; 2]%nat [3; -4]) (mkTensor [1; 2]%nat [-1; 2]) = Some kl /\
    neg_variational_lower_bound
      (notebook_globals (mkGraph (mkTensor [1; 1; 2; 1]%nat [0; 1])
                           (mkTensor [1; 2]%nat [3; -4]) (mkTensor [1; 2]%nat [-1; 2])
                           (mkTensor [1; 2]%nat [3; -4])
                           (mkTensor [1; 1; 2; 1]%nat [1 / 2; 1 / 2])))
      (mkTensor [1; 1; 2; 1]%nat [0; 1]) (mkTensor [1; 1; 2; 1]%nat [1 / 2; 1 / 2])
    = Some (mkTensor [] [item (K.mean rc) 0 + item (K.mean kl) 0]).
Proof.
  apply (loss_splits_into_means _ (mkTensor [1; 1; 2; 1]%nat [0; 1])
           (mkTensor [1; 1; 2; 1]%nat [1 / 2; 1 / 2])
           (mkTensor [1; 2]%nat [3; -4]) (mkTensor [1; 2]%nat [-1; 2]) 1 2 [1; 2; 1]%nat);
    try reflexivity. simpl. lia.
Defined.
